(** * Consumer-Lumen: the live audio session

    A shallow embedding of [src/components/LiveSession.tsx] (the live,
    voice-to-voice session component) together with the PCM16 codec it
    imports from [services/audioUtils].

    Conventions.
    - JavaScript numbers that carry audio samples, clock readings and
      durations are idealised as exact rationals ([Q]); 16-bit integers
      and bytes are [Z] with the wrap-around written out.
    - React refs ([useRef]) and the variables captured by the closure of
      the mount effect are fields of explicit state records; every
      callback is a function from state to state (or an outcome, when it
      can throw).
    - The JS [Set] of audio source nodes is a [gset] of node ids, the
      nodes themselves live in a [gmap] that plays the heap.
    - The one [await] inside a callback, in [onmessage], splits that
      handler in two halves; [Machine] keeps the suspended handlers and
      lets callbacks and settling promises alternate in any order. *)

From Stdlib Require Import ZArith QArith Qround Qabs Lqa Lia List Bool String.
From stdpp Require Import base option gmap sets list.

Local Open Scope Z_scope.

(** ** PCM16 codec *)

Module Codec.

(** A raw byte, kept as an integer in [0, 255]. *)
Definition byte := Z.

(** SampleBuffer: normalised samples tagged with rate and channel count. *)
Record SampleBuffer := mkSampleBuffer {
  samples : list Q;
  rate : Z;
  channels : N
}.

Inductive CodecError := MalformedAudioError.

Definition Qmin' (a b : Q) : Q := if Qle_bool a b then a else b.
Definition Qmax' (a b : Q) : Q := if Qle_bool a b then b else a.

(** [clamp(s, lo, hi)] as [max(lo, min(s, hi))]. *)
Definition clamp (s lo hi : Q) : Q := Qmax' lo (Qmin' s hi).

(** [round]: nearest integer, halves upward (JS [Math.round]). *)
Definition round (x : Q) : Z := Qfloor (x + (1 # 2))%Q.

(** Modelled from the spec: [services/audioUtils] is not among the
    sources, so the sample quantiser follows section 4.1:
    [round(clamp(s, -1, 1) * 32767)]. *)
Definition quantize (s : Q) : Z := round (clamp s (-1) 1 * 32767)%Q.

(** Two's-complement little-endian serialisation of a 16-bit integer. *)
Definition int16_to_le (v : Z) : list byte :=
  let u := v mod 65536 in [u mod 256; u / 256].

(** Signed reading of the 16-bit word [lo + 256 * hi]. *)
Definition int16_of_le (lo hi : byte) : Z :=
  let u := lo + 256 * hi in
  if u <? 32768 then u else u - 65536.

(** Modelled from the spec: [encodePcm16] of section 4.1, two bytes per
    sample in buffer order. *)
Definition encodePcm16 (b : SampleBuffer) : list byte :=
  flat_map (fun s => int16_to_le (quantize s)) (samples b).

(** Reading the payload two bytes at a time; a trailing odd byte is junk
    that [decodePcm16] rules out beforehand. *)
Fixpoint decode_words (bs : list byte) : list Q :=
  match bs with
  | lo :: hi :: rest => (int16_of_le lo hi # 32768)%Q :: decode_words rest
  | _ => []
  end.

(** Modelled from the spec: [decodePcm16] of section 4.1: every 16-bit
    value divided by 32768, [MalformedAudioError] when the byte length is
    not a multiple of [2 * channelCount]. *)
Definition decodePcm16 (bs : list byte) (sampleRate : Z) (channelCount : N)
  : CodecError + SampleBuffer :=
  if (N.of_nat (length bs) mod (2 * channelCount) =? 0)%N
  then inr (mkSampleBuffer (decode_words bs) sampleRate channelCount)
  else inl MalformedAudioError.

(** Per-sample closeness of two buffers with the same tags. *)
Definition within (eps : Q) (b b' : SampleBuffer) : Prop :=
  rate b' = rate b /\ channels b' = channels b /\
  Forall2 (fun s s' => (Qabs (s' - s) <= eps)%Q) (samples b) (samples b').

Definition in_range (b : SampleBuffer) : Prop :=
  Forall (fun s => (-1 <= s <= 1)%Q) (samples b).

(** A well-formed interleaved buffer holds whole frames. *)
Definition whole_frames (b : SampleBuffer) : Prop :=
  (N.of_nat (length (samples b)) mod channels b = 0)%N.

End Codec.

(** ** The live session component *)

Module Live.
Import Codec.

(** *** Host objects *)

(** An [AudioBuffer] as the playback path sees it: a frame count at a
    sample rate. Its [duration] is the quotient of the two. *)
Record AudioBuffer := mkAudioBuffer {
  ab_length : N;
  ab_sampleRate : positive
}.

Definition duration (b : AudioBuffer) : Q :=
  (Z.of_N (ab_length b) # ab_sampleRate b)%Q.

(** An [AudioBufferSourceNode]: the buffer assigned to it, the instant
    passed to [start] and whether [stop] was called. *)
Record SourceNode := mkSourceNode {
  sn_buffer : option AudioBuffer;
  sn_startedAt : option Q;
  sn_stopped : bool
}.

Definition sn_stop (n : SourceNode) : SourceNode :=
  mkSourceNode (sn_buffer n) (sn_startedAt n) true.

(** The blob handed to [session.sendRealtimeInput]. *)
Record PcmBlob := mkPcmBlob {
  blob_bytes : list byte;
  blob_rate : Z
}.

(** The value given to [setVolume]: [Math.min(Math.sqrt(ms) * 5, 1)] for
    the mean square [ms] of the frame. The square root is kept symbolic. *)
Inductive VolumeSample := MinSqrtTimes5 (meanSquare : Q).

(** Calls made on the way out, in the order they are made. *)
Inductive HostCall :=
  | CloseSession
  | CloseInputContext
  | CloseOutputContext
  | CancelAnimationFrame (handle : nat)
  | OnClose.

(** How a call into the host ends: it returns, it returns a promise that
    rejects later, or it throws on the spot. *)
Inductive CallResult := Returns | RejectsLater | Throws.

(** *** The inbound message, with every optional link of
    [message.serverContent?.modelTurn?.parts?.[0]?.inlineData?.data] *)

Record InlineData := mkInlineData { data : option string }.
Record Part := mkPart { inlineData : option InlineData }.
Record Content := mkContent { parts : option (list Part) }.
Record ServerContent := mkServerContent {
  modelTurn : option Content;
  interrupted : option bool
}.
Record LiveServerMessage := mkMessage { serverContent : option ServerContent }.

(** *** Component state *)

Inductive Status :=
  | Initializing | Connected | Disconnected | ErrorOccurred | FailedToConnect.

(** [useState] cells. *)
Record Ui := mkUi {
  isConnected : bool;
  isMuted : bool;
  status : Status;
  volume : VolumeSample
}.

(** [useRef] cells. *)
Record Refs := mkRefs {
  inputAudioContextRef : option Z;   (* the context, by its sample rate *)
  outputAudioContextRef : option Z;
  nextStartTimeRef : Q;
  sourcesRef : gset nat;
  sessionRef : bool;                 (* a session object is stored *)
  animationFrameRef : option nat
}.

(** [sessionPromise]: not yet created, pending with the [then] callbacks
    registered by the ticks, or fulfilled. A handshake that fails never
    calls [onopen]; it is left out. *)
Inductive Promise := NotCreated | Pending (thens : list PcmBlob) | Fulfilled.

(** What the closure of the mount effect holds: [mounted], the [isMuted]
    binding of the render that ran the effect, [sessionPromise], and
    whether [onaudioprocess] has been installed. *)
Record Closure := mkClosure {
  mounted : bool;
  isMuted_bound : bool;
  sessionPromise : Promise;
  onaudioprocess : bool
}.

(** The world outside the component. *)
Record Host := mkHost {
  nodes : gmap nat SourceNode;
  sent : list PcmBlob;             (* session.sendRealtimeInput, oldest first *)
  published : list VolumeSample;   (* setVolume calls, oldest first *)
  calls : list HostCall;           (* teardown calls, oldest first *)
  micRequests : nat                (* getUserMedia calls *)
}.

Record State := mkState {
  ui : Ui;
  refs : Refs;
  clo : Closure;
  host : Host
}.

(** Field updates. *)
Definition on_ui (f : Ui -> Ui) (st : State) : State :=
  mkState (f (ui st)) (refs st) (clo st) (host st).
Definition on_refs (f : Refs -> Refs) (st : State) : State :=
  mkState (ui st) (f (refs st)) (clo st) (host st).
Definition on_clo (f : Closure -> Closure) (st : State) : State :=
  mkState (ui st) (refs st) (f (clo st)) (host st).
Definition on_host (f : Host -> Host) (st : State) : State :=
  mkState (ui st) (refs st) (clo st) (f (host st)).

Definition setIsConnected (b : bool) (u : Ui) : Ui :=
  mkUi b (isMuted u) (status u) (volume u).
Definition setIsMuted (b : bool) (u : Ui) : Ui :=
  mkUi (isConnected u) b (status u) (volume u).
Definition setStatus (s : Status) (u : Ui) : Ui :=
  mkUi (isConnected u) (isMuted u) s (volume u).
Definition setVolume (v : VolumeSample) (u : Ui) : Ui :=
  mkUi (isConnected u) (isMuted u) (status u) v.

Definition set_contexts (i o : option Z) (r : Refs) : Refs :=
  mkRefs i o (nextStartTimeRef r) (sourcesRef r) (sessionRef r)
    (animationFrameRef r).
Definition set_nextStartTime (t : Q) (r : Refs) : Refs :=
  mkRefs (inputAudioContextRef r) (outputAudioContextRef r) t (sourcesRef r)
    (sessionRef r) (animationFrameRef r).
Definition set_sources (s : gset nat) (r : Refs) : Refs :=
  mkRefs (inputAudioContextRef r) (outputAudioContextRef r)
    (nextStartTimeRef r) s (sessionRef r) (animationFrameRef r).
Definition set_session (b : bool) (r : Refs) : Refs :=
  mkRefs (inputAudioContextRef r) (outputAudioContextRef r)
    (nextStartTimeRef r) (sourcesRef r) b (animationFrameRef r).

Definition set_mounted (b : bool) (c : Closure) : Closure :=
  mkClosure b (isMuted_bound c) (sessionPromise c) (onaudioprocess c).
Definition set_promise (p : Promise) (c : Closure) : Closure :=
  mkClosure (mounted c) (isMuted_bound c) p (onaudioprocess c).
Definition set_onaudioprocess (b : bool) (c : Closure) : Closure :=
  mkClosure (mounted c) (isMuted_bound c) (sessionPromise c) b.

Definition set_nodes (n : gmap nat SourceNode) (h : Host) : Host :=
  mkHost n (sent h) (published h) (calls h) (micRequests h).
Definition push_sent (bs : list PcmBlob) (h : Host) : Host :=
  mkHost (nodes h) (sent h ++ bs) (published h) (calls h) (micRequests h).
Definition push_published (v : VolumeSample) (h : Host) : Host :=
  mkHost (nodes h) (sent h) (published h ++ [v]) (calls h) (micRequests h).
Definition push_call (c : HostCall) (h : Host) : Host :=
  mkHost (nodes h) (sent h) (published h) (calls h ++ [c]) (micRequests h).
Definition count_micRequest (h : Host) : Host :=
  mkHost (nodes h) (sent h) (published h) (calls h) (S (micRequests h)).

(** *** Callbacks that can throw: a state-and-exception monad *)

Inductive Outcome (A : Type) :=
  | Done (a : A) (st : State)
  | Thrown (st : State).
Arguments Done {A} a st.
Arguments Thrown {A} st.

Definition M (A : Type) : Type := State -> Outcome A.

Definition ret {A} (a : A) : M A := fun st => Done a st.
Definition bind {A B} (c : M A) (k : A -> M B) : M B :=
  fun st => match c st with
            | Done a st' => k a st'
            | Thrown st' => Thrown st'
            end.
Definition throw {A} : M A := fun st => Thrown st.
Definition get {A} (f : State -> A) : M A := fun st => Done (f st) st.
Definition modify (f : State -> State) : M unit := fun st => Done tt (f st).
Definition when (b : bool) (c : M unit) : M unit := if b then c else ret tt.

Notation "'let*' x ':=' c 'in' k" := (bind c (fun x => k))
  (at level 10, x name, c at level 100, k at level 200).
Notation "c ;; k" := (bind c (fun _ => k))
  (at level 100, k at level 200, right associativity).

Definition final {A} (o : Outcome A) : State :=
  match o with Done _ st => st | Thrown st => st end.

Definition completes {A} (o : Outcome A) : bool :=
  match o with Done _ _ => true | Thrown _ => false end.

(** *** Mounting *)

(** The values of the first render: [useState] defaults and fresh refs. *)
Definition firstRender : State :=
  mkState (mkUi false false Initializing (MinSqrtTimes5 0))
          (mkRefs None None 0 ∅ false None)
          (mkClosure false false NotCreated false)
          (mkHost ∅ [] [] [] 0).

(** The mount effect up to its first [await]: the closure is created over
    the bindings of the current render ([mounted = true], the render's
    [isMuted]), both audio contexts are created and the microphone is
    requested. *)
Definition mountEffect (st : State) : State :=
  on_host count_micRequest
    (on_refs (set_contexts (Some 16000) (Some 24000))
       (on_clo (fun _ => mkClosure true (isMuted (ui st)) NotCreated false) st)).

(** [getUserMedia] resolved: [ai.live.connect] is called and its promise
    kept in the closure. *)
Definition micGranted (st : State) : State :=
  on_clo (set_promise (Pending [])) st.

(** [getUserMedia] rejected: the [catch] branch of [startSession]. *)
Definition micDenied (st : State) : State :=
  on_ui (setStatus FailedToConnect) st.

(** [sessionPromise] fulfils: the session is stored for cleanup and the
    queued [then] callbacks send their blobs in registration order. *)
Definition sessionFulfilled (st : State) : State :=
  match sessionPromise (clo st) with
  | Pending thens =>
      on_host (push_sent thens)
        (on_refs (set_session true) (on_clo (set_promise Fulfilled) st))
  | _ => st
  end.

(** *** Capture path *)

(** [sessionPromise.then(session => session.sendRealtimeInput(...))] *)
Definition thenSend (blob : PcmBlob) (st : State) : State :=
  match sessionPromise (clo st) with
  | Pending thens => on_clo (set_promise (Pending (thens ++ [blob]))) st
  | Fulfilled => on_host (push_sent [blob]) st
  | NotCreated => st
  end.

(** The loop [for (i...) sum += inputData[i] * inputData[i]]. *)
Definition sumSquares (inputData : list Q) : Q :=
  fold_left (fun sum x => (sum + x * x)%Q) inputData 0%Q.

(** [sum / inputData.length]. The script processor delivers frames of
    4096 samples; on an empty frame the quotient is 0 here and [NaN] in
    JavaScript. *)
Definition meanSquare (inputData : list Q) : Q :=
  (sumSquares inputData / inject_Z (Z.of_nat (length inputData)))%Q.

(** Modelled from the spec: [createPcmBlob] of [services/audioUtils] is
    not among the sources; it is the codec's [encodePcm16] on the mono
    16 kHz capture frame. *)
Definition createPcmBlob (inputData : list Q) : PcmBlob :=
  mkPcmBlob (encodePcm16 (mkSampleBuffer inputData 16000 1)) 16000.

(** [scriptProcessor.onaudioprocess]: the mute test reads the binding the
    closure was created with. *)
Definition audioprocess (inputData : list Q) (st : State) : State :=
  if isMuted_bound (clo st) then st
  else
    let v := MinSqrtTimes5 (meanSquare inputData) in
    let st1 := on_host (push_published v) (on_ui (setVolume v) st) in
    thenSend (createPcmBlob inputData) st1.

(** [onopen] *)
Definition onopen (st : State) : State :=
  if negb (mounted (clo st)) then st
  else
    on_clo (set_onaudioprocess true)
      (on_ui (setStatus Connected) (on_ui (setIsConnected true) st)).

(** The mute button: [setIsMuted(!isMuted)]. *)
Definition toggleMute (st : State) : State :=
  on_ui (setIsMuted (negb (isMuted (ui st)))) st.

(** *** Playback path *)

(** [Math.max] *)
Definition Qmax (a b : Q) : Q := if Qle_bool a b then b else a.

(** A string as a condition: true unless it is empty. *)
Definition truthy (s : string) : bool :=
  match s with EmptyString => false | _ => true end.

(** [message.serverContent?.modelTurn?.parts?.[0]?.inlineData?.data] *)
Definition base64AudioOf (message : LiveServerMessage) : option string :=
  sc ← serverContent message;
  mt ← modelTurn sc;
  ps ← parts mt;
  p ← head ps;
  d ← inlineData p;
  data d.

(** [message.serverContent?.interrupted], as a condition. *)
Definition interruptedOf (message : LiveServerMessage) : bool :=
  match serverContent message with
  | Some sc => default false (interrupted sc)
  | None => false
  end.

(** [sourcesRef.current.forEach(src => src.stop())] *)
Definition stopAll (srcs : gset nat) (ns : gmap nat SourceNode)
  : gmap nat SourceNode :=
  set_fold (fun id acc => alter sn_stop id acc) ns srcs.

(** The interruption branch of [onmessage] (lines 123-127). *)
Definition interrupt (st : State) : State :=
  let st1 := on_host (set_nodes (stopAll (sourcesRef (refs st)) (nodes (host st)))) st in
  let st2 := on_refs (set_sources ∅) st1 in
  on_refs (set_nextStartTime 0) st2.

(** Lines 111-119: everything after the buffer has been decoded. Returns
    the id of the new source node. *)
Definition scheduleDecoded (audioBuffer : AudioBuffer) (st : State)
  : nat * State :=
  let source := fresh (dom (nodes (host st))) in
  let start := nextStartTimeRef (refs st) in
  let node := mkSourceNode (Some audioBuffer) (Some start) false in
  let st1 := on_host (set_nodes (<[source := node]> (nodes (host st)))) st in
  let st2 := on_refs (set_nextStartTime (start + duration audioBuffer)%Q) st1 in
  (source, on_refs (set_sources ({[source]} ∪ sourcesRef (refs st2))) st2).

(** The ['ended'] listener of a source node. *)
Definition ended (source : nat) (st : State) : State :=
  on_refs (set_sources (sourcesRef (refs st) ∖ {[source]})) st.

Section WithDecoder.

(** [decodeAudioData(base64ToUint8Array(s), ctx, 24000, 1)]: both helpers
    live in [services/audioUtils], which is not among the sources; they
    are a parameter here. [None] stands for a rejected promise. *)
Variable decodeAudio : string -> option AudioBuffer.

(** Lines 99-120 once the guard has passed: raise the cursor, decode,
    schedule, for a handler that reaches its end before any other
    callback runs, so that the cursor read by [source.start] is the one
    written before the [await]. The two halves of the handler around the
    [await], with whatever runs in between, are [onmessageBegin] and
    [onmessageResume] below. *)
Definition scheduleForPlayback (now : Q) (base64Audio : string) : M nat :=
  modify (fun st =>
    on_refs (set_nextStartTime (Qmax (nextStartTimeRef (refs st)) now)) st) ;;
  match decodeAudio base64Audio with
  | None => throw
  | Some audioBuffer =>
      fun st => let '(source, st') := scheduleDecoded audioBuffer st in
                Done source st'
  end.

(** [onmessage], not overlapped by another callback; [now] is
    [ctx.currentTime] as read by the handler. *)
Definition onmessage (now : Q) (message : LiveServerMessage) : M unit :=
  let* m := get (fun st => mounted (clo st)) in
  if negb m then ret tt
  else
    let* ctx := get (fun st => outputAudioContextRef (refs st)) in
    match base64AudioOf message, ctx with
    | Some base64Audio, Some _ =>
        if truthy base64Audio
        then scheduleForPlayback now base64Audio ;; ret tt
        else ret tt
    | _, _ => ret tt
    end ;;
    when (interruptedOf message) (modify interrupt).

End WithDecoder.

(** [onclose] and [onerror] *)
Definition onclose (st : State) : State :=
  if mounted (clo st) then on_ui (setStatus Disconnected) st else st.
Definition onerror (st : State) : State :=
  if mounted (clo st) then on_ui (setStatus ErrorOccurred) st else st.

(** *** Teardown *)

(** One call into the host: it is made, then it may throw. *)
Definition call (c : HostCall) (r : CallResult) : M unit :=
  modify (on_host (push_call c)) ;;
  match r with Throws => throw | _ => ret tt end.

(** [disconnect]; the three arguments say how [session.close()] and the
    two [AudioContext.close()] calls end. *)
Definition disconnect (rs ri ro : CallResult) : M unit :=
  let* s := get (fun st => sessionRef (refs st)) in
  when s (call CloseSession rs) ;;
  let* i := get (fun st => inputAudioContextRef (refs st)) in
  when (bool_decide (is_Some i)) (call CloseInputContext ri) ;;
  let* o := get (fun st => outputAudioContextRef (refs st)) in
  when (bool_decide (is_Some o)) (call CloseOutputContext ro) ;;
  let* a := get (fun st => animationFrameRef (refs st)) in
  match a with
  | Some h => if (0 <? h)%nat then call (CancelAnimationFrame h) Returns else ret tt
  | None => ret tt
  end ;;
  modify (on_ui (setIsConnected false)) ;;
  call OnClose Returns.

(** The cleanup of the mount effect. *)
Definition cleanup (rs ri ro : CallResult) : M unit :=
  modify (on_clo (set_mounted false)) ;;
  disconnect rs ri ro.

(** *** The component as a machine driven by its environment *)

Inductive Event :=
  | MicGranted
  | MicDenied
  | Open
  | SessionFulfilled
  | AudioProcess (inputData : list Q)
  | Message (now : Q) (message : LiveServerMessage)
  | Ended (source : nat)
  | TransportClose
  | TransportError
  | ToggleMute
  | Disconnect (rs ri ro : CallResult)
  | Unmount (rs ri ro : CallResult).

Definition connectCalled (st : State) : bool :=
  match sessionPromise (clo st) with NotCreated => false | _ => true end.

(** One event. The host calls a callback only once it is registered: the
    transport callbacks after [ai.live.connect], [onaudioprocess] after
    [onopen] installed it, ['ended'] on a node that exists; the
    [getUserMedia] promise settles before [ai.live.connect]. An exception
    leaving a callback is dropped by the event loop; the state it leaves
    behind stays. A message handler runs to its end within its step;
    [turn] below is the machine in which other callbacks run while a
    handler waits at its [await]. *)
Definition step (decodeAudio : string -> option AudioBuffer)
    (st : State) (ev : Event) : State :=
  match ev with
  | MicGranted => if connectCalled st then st else micGranted st
  | MicDenied => if connectCalled st then st else micDenied st
  | Open => if connectCalled st then onopen st else st
  | SessionFulfilled => sessionFulfilled st
  | AudioProcess inputData =>
      if onaudioprocess (clo st) then audioprocess inputData st else st
  | Message now message =>
      if connectCalled st then final (onmessage decodeAudio now message st)
      else st
  | Ended source =>
      if bool_decide (is_Some (nodes (host st) !! source))
      then ended source st else st
  | TransportClose => if connectCalled st then onclose st else st
  | TransportError => if connectCalled st then onerror st else st
  | ToggleMute => toggleMute st
  | Disconnect rs ri ro => final (disconnect rs ri ro st)
  | Unmount rs ri ro => final (cleanup rs ri ro st)
  end.

Definition run (decodeAudio : string -> option AudioBuffer)
    (evs : list Event) (st : State) : State :=
  fold_left (step decodeAudio) evs st.

(** The component right after it mounted. *)
Definition mounted0 : State := mountEffect firstRender.

(** Blobs whose [then] callback is still waiting for the session. *)
Definition queued (st : State) : list PcmBlob :=
  match sessionPromise (clo st) with Pending thens => thens | _ => [] end.

(** *** Observations used by the statements *)

Definition cursor (st : State) : Q := nextStartTimeRef (refs st).
Definition active (st : State) : gset nat := sourcesRef (refs st).

(** The instant a handle was started at, if it was. *)
Definition startOf (st : State) (h : nat) : option Q :=
  n ← nodes (host st) !! h; sn_startedAt n.

Definition isStopped (st : State) (h : nat) : bool :=
  match nodes (host st) !! h with Some n => sn_stopped n | None => false end.

(** A message carrying one audio part and, possibly, the interrupted flag. *)
Definition audioMessage (base64Audio : string) (intr : option bool)
  : LiveServerMessage :=
  mkMessage (Some (mkServerContent
    (Some (mkContent (Some [mkPart (Some (mkInlineData (Some base64Audio)))])))
    intr)).

(** A message with the interrupted flag and no model turn. *)
Definition interruptionMessage : LiveServerMessage :=
  mkMessage (Some (mkServerContent None (Some true))).

(** A message that interrupts when it reaches the flag test. *)
Definition interrupts (ev : Event) : bool :=
  match ev with
  | Message _ message => interruptedOf message
  | _ => false
  end.

(** Everything the capture path reads or writes. *)
Definition captureView (st : State)
  : bool * Promise * bool * list PcmBlob * list VolumeSample * nat :=
  (isMuted_bound (clo st), sessionPromise (clo st), onaudioprocess (clo st),
   sent (host st), published (host st), micRequests (host st)).

(** Blobs handed to the transport path so far, sent or still queued. *)
Definition forwarded (st : State) : list PcmBlob := sent (host st) ++ queued st.

(** The component before [onopen]: nothing sent, nothing queued. *)
Definition quiet (st : State) : Prop :=
  onaudioprocess (clo st) = false /\ sent (host st) = [] /\ queued st = [] /\
  isConnected (ui st) = false.

(** [onaudioprocess] is installed only once [ai.live.connect] was called. *)
Definition armed (st : State) : Prop :=
  onaudioprocess (clo st) = true -> connectCalled st = true.

(** The teardown calls a ref gives rise to. *)
Definition callIf (b : bool) (c : HostCall) : list HostCall :=
  if b then [c] else [].

Definition cancelCalls (a : option nat) : list HostCall :=
  match a with
  | Some h => if (0 <? h)%nat then [CancelAnimationFrame h] else []
  | None => []
  end.

(** [c] relates every state to the one it leaves, also when it throws. *)
Definition keeps (R : State -> State -> Prop) {A} (c : M A) : Prop :=
  forall st, R st (final (c st)).

(** Decoders for the examples: one frame per character of payload at
    24 kHz, and one that yields a buffer without frames. *)
Definition lengthDecoder (s : string) : option AudioBuffer :=
  Some (mkAudioBuffer (N.of_nat (String.length s)) 24000).

Definition emptyDecoder (s : string) : option AudioBuffer :=
  Some (mkAudioBuffer 0 24000).

(** *** Views and predicates for the invariants *)

(** The playback path's own state. *)
Definition playbackView (st : State) : Q * gset nat * gmap nat SourceNode :=
  (cursor st, active st, nodes (host st)).

(** Everything [onmessage] and the ['ended'] listener leave alone. *)
Definition besidePlayback (st : State) :=
  (ui st, clo st, inputAudioContextRef (refs st),
   outputAudioContextRef (refs st), sessionRef (refs st),
   animationFrameRef (refs st), sent (host st), published (host st),
   calls (host st), micRequests (host st)).

(** The interval a handle is scheduled to play in: start and end. *)
Definition intervalOf (st : State) (h : nat) : option (Q * Q) :=
  n ← nodes (host st) !! h;
  b ← sn_buffer n;
  t ← sn_startedAt n;
  Some (t, (t + duration b)%Q).

(** The active set holds started, unstopped nodes that end by the cursor
    and do not overlap one another. *)
Definition gapless (st : State) : Prop :=
  (forall h, h ∈ active st ->
     exists b t, nodes (host st) !! h
                 = Some (mkSourceNode (Some b) (Some t) false) /\
                 (t + duration b <= cursor st)%Q) /\
  (forall h1 h2 b1 t1 b2 t2, h1 ∈ active st -> h2 ∈ active st -> h1 <> h2 ->
     nodes (host st) !! h1 = Some (mkSourceNode (Some b1) (Some t1) false) ->
     nodes (host st) !! h2 = Some (mkSourceNode (Some b2) (Some t2) false) ->
     (t1 + duration b1 <= t2)%Q \/ (t2 + duration b2 <= t1)%Q).

(** The calls one non-throwing [disconnect] makes in a state. *)
Definition releaseCalls (st : State) : list HostCall :=
  callIf (sessionRef (refs st)) CloseSession
  ++ callIf (bool_decide (is_Some (inputAudioContextRef (refs st)))) CloseInputContext
  ++ callIf (bool_decide (is_Some (outputAudioContextRef (refs st)))) CloseOutputContext
  ++ cancelCalls (animationFrameRef (refs st)) ++ [OnClose].

(** The frames of the capture ticks of an event sequence, in order. *)
Definition ticks (evs : list Event) : list (list Q) :=
  flat_map (fun ev => match ev with AudioProcess d => [d] | _ => [] end) evs.

Definition loudnessOf (inputData : list Q) : VolumeSample :=
  MinSqrtTimes5 (meanSquare inputData).

(** Audio messages, all read at the same clock value. *)
Definition audioBurst (now : Q) (payloads : list string) : list Event :=
  map (fun s => Message now (audioMessage s None)) payloads.

Definition totalDuration (bufs : list AudioBuffer) : Q :=
  fold_right (fun b acc => (duration b + acc)%Q) 0%Q bufs.

(** A component that stores no session and has closed none. *)
Definition sessionless (st : State) : Prop :=
  sessionRef (refs st) = false /\ CloseSession ∉ calls (host st).


(** The frames one step hands to the capture path. *)
Definition framesOf (st : State) (ev : Event) : list (list Q) :=
  match ev with
  | AudioProcess d => if onaudioprocess (clo st) then [d] else []
  | _ => []
  end.

(** The component is live: mounted, connected to the transport callbacks,
    with an output context. *)
Definition live (st : State) : Prop :=
  mounted (clo st) = true /\ connectCalled st = true /\
  is_Some (outputAudioContextRef (refs st)).

(** The capture device and the two audio contexts. *)
Definition deviceView (st : State) : nat * option Z * option Z :=
  (micRequests (host st), inputAudioContextRef (refs st),
   outputAudioContextRef (refs st)).

(** *** The message handler around its [await] *)

(** A handler suspended at [await decodeAudioData(...)] (line 104): what
    the promise settles with ([None]: it rejects) and whether its message
    carries the interrupted flag, which is tested after the await. *)
Record Suspended := mkSuspended {
  awaited : option AudioBuffer;
  thenInterrupts : bool
}.

(** [onmessage] up to its [await] (lines 96-109), or up to its end when
    it does not reach the [await]. *)
Definition onmessageBegin (decodeAudio : string -> option AudioBuffer)
    (now : Q) (message : LiveServerMessage) (st : State)
  : State * option Suspended :=
  if negb (mounted (clo st)) then (st, None)
  else
    match base64AudioOf message, outputAudioContextRef (refs st) with
    | Some base64Audio, Some _ =>
        if truthy base64Audio
        then (on_refs (set_nextStartTime
                         (Qmax (nextStartTimeRef (refs st)) now)) st,
              Some (mkSuspended (decodeAudio base64Audio)
                                (interruptedOf message)))
        else (if interruptedOf message then interrupt st else st, None)
    | _, _ => (if interruptedOf message then interrupt st else st, None)
    end.

(** [onmessage] from its [await] on (lines 111-127), run in the state the
    component is in when the promise settles. *)
Definition onmessageResume (k : Suspended) (st : State) : Outcome unit :=
  match awaited k with
  | None => Thrown st
  | Some audioBuffer =>
      let st1 := snd (scheduleDecoded audioBuffer st) in
      Done tt (if thenInterrupts k then interrupt st1 else st1)
  end.

(** The component together with the handlers suspended at their await. *)
Record Machine := mkMachine {
  component : State;
  awaiting : list Suspended
}.

(** What happens next: the host calls a callback, or the decode promise
    of the [i]-th suspended handler settles and that handler goes on. *)
Inductive Turn :=
  | Callback (ev : Event)
  | Settles (i : nat).

Definition turn (decodeAudio : string -> option AudioBuffer)
    (m : Machine) (t : Turn) : Machine :=
  match t with
  | Callback (Message now message) =>
      if connectCalled (component m)
      then
        let '(st, k) := onmessageBegin decodeAudio now message (component m) in
        mkMachine st (awaiting m ++ option_list k)
      else m
  | Callback ev => mkMachine (step decodeAudio (component m) ev) (awaiting m)
  | Settles i =>
      match awaiting m !! i with
      | Some k => mkMachine (final (onmessageResume k (component m)))
                            (delete i (awaiting m))
      | None => m
      end
  end.

Definition turns (decodeAudio : string -> option AudioBuffer)
    (ts : list Turn) (m : Machine) : Machine :=
  fold_left (turn decodeAudio) ts m.

(** The machine right after mount: nothing is suspended. *)
Definition machine0 : Machine := mkMachine mounted0 [].

(** A message whose first part carries the non-empty payload [s], which
    decodes to [b], and which does not carry the interrupted flag. *)
Definition audible (decodeAudio : string -> option AudioBuffer)
    (message : LiveServerMessage) (s : string) (b : AudioBuffer) : Prop :=
  base64AudioOf message = Some s /\ truthy s = true /\
  decodeAudio s = Some b /\ interruptedOf message = false.

End Live.

(** ** Prompts built from article text *)

Module Prompts.

(** [generatePodcastAudio]: the article text put into the prompt. A
    string is taken as its sequence of code units. *)
Definition safeContent (content : string) : string :=
  if (2500 <? String.length content)%nat
  then (substring 0 2500 content ++ "...")%string
  else content.

End Prompts.

(** ** The consumer dashboard's store of generated material *)

Module Dashboard.

Record Podcast := mkPodcast {
  pod_id : string;
  pod_profileDescription : string;
  audioBase64 : string;
  pod_createdAt : string
}.

Record Adaptation := mkAdaptation {
  ad_id : string;
  ad_profileDescription : string;
  ad_content : string;
  image : option string;
  ad_createdAt : string
}.

Record Article := mkArticle {
  art_id : string;
  title : string;
  content : string;
  author : string;
  certified : bool;
  enhanced : bool;
  tags : list string;
  podcasts : list Podcast;
  adaptations : list Adaptation;
  lastUpdated : string
}.

Record ConsumerProfile := mkProfile {
  role : string;
  expertise : string;
  timeConstraint : string
}.

Inductive ConsumerFormat :=
  | TEXT_SUMMARY | FULL_ADAPTIVE | PODCAST_STATIC | LIVE_INTERACTION | COMIC_BOOK.

(** [getProfileKey] *)
Definition getProfileKey (profile : ConsumerProfile) : string :=
  (role profile ++ " - " ++ expertise profile)%string.

Definition comicKey : string := "Tintin Comic Script".

(** [articles.find(a => a.id === selectedArticleId)] *)
Definition selectedArticle (articles : list Article)
    (selectedArticleId : option string) : option Article :=
  match selectedArticleId with
  | Some i => find (fun a => String.eqb (art_id a) i) articles
  | None => None
  end.

(** [storedAdaptation] *)
Definition storedAdaptation (selected : option Article)
    (profile : ConsumerProfile) (activeFormat : ConsumerFormat)
  : option Adaptation :=
  match selected with
  | None => None
  | Some a =>
      match activeFormat with
      | COMIC_BOOK =>
          find (fun x => String.eqb (ad_profileDescription x) comicKey)
               (adaptations a)
      | _ =>
          find (fun x => String.eqb (ad_profileDescription x)
                                    (getProfileKey profile))
               (adaptations a)
      end
  end.

(** [storedPodcast] *)
Definition storedPodcast (selected : option Article)
    (profile : ConsumerProfile) : option Podcast :=
  match selected with
  | None => None
  | Some a =>
      find (fun p => String.eqb (pod_profileDescription p)
                                (getProfileKey profile))
           (podcasts a)
  end.

Definition set_adaptations (l : list Adaptation) (a : Article) : Article :=
  mkArticle (art_id a) (title a) (content a) (author a) (certified a)
    (enhanced a) (tags a) (podcasts a) l (lastUpdated a).

Definition set_podcasts (l : list Podcast) (a : Article) : Article :=
  mkArticle (art_id a) (title a) (content a) (author a) (certified a)
    (enhanced a) (tags a) l (adaptations a) (lastUpdated a).

Definition set_image (img : string) (x : Adaptation) : Adaptation :=
  mkAdaptation (ad_id x) (ad_profileDescription x) (ad_content x) (Some img)
    (ad_createdAt x).

(** [prev.map(a => a.id === updatedArticle.id ? updatedArticle : a)] *)
Definition replaceArticle (updatedArticle : Article) (prev : list Article)
  : list Article :=
  map (fun a => if String.eqb (art_id a) (art_id updatedArticle)
                then updatedArticle else a) prev.

(** [handleGenerate], text and comic branches: the new adaptation goes
    in front of those of the article as it was when the handler started,
    and that article replaces the one in the list. *)
Definition saveAdaptation (selected : Article) (newAdaptation : Adaptation)
    (prev : list Article) : list Article :=
  replaceArticle
    (set_adaptations (newAdaptation :: adaptations selected) selected) prev.

Definition textAdaptation (uuid text createdAt : string)
    (profile : ConsumerProfile) : Adaptation :=
  mkAdaptation uuid (getProfileKey profile) text None createdAt.

Definition comicAdaptation (uuid comicScript createdAt : string) : Adaptation :=
  mkAdaptation uuid comicKey comicScript None createdAt.

(** [handleGenerate], podcast branch. *)
Definition savePodcast (selected : Article) (newPodcast : Podcast)
    (prev : list Article) : list Article :=
  replaceArticle (set_podcasts (newPodcast :: podcasts selected) selected) prev.

(** [Array.prototype.findIndex], with [None] for -1. *)
Fixpoint findIndex {A} (p : A -> bool) (l : list A) : option nat :=
  match l with
  | [] => None
  | x :: l' => if p x then Some 0%nat else S <$> findIndex p l'
  end.

(** [handleIllustrate] once an image has come back: the image is put on
    the first comic adaptation of the selected article; without one the
    list of articles is not touched. *)
Definition saveIllustration (selected : Article) (imageBase64 : string)
    (prev : list Article) : list Article :=
  match findIndex (fun x => String.eqb (ad_profileDescription x) comicKey)
                  (adaptations selected) with
  | Some i =>
      replaceArticle
        (set_adaptations (alter (set_image imageBase64) i (adaptations selected))
           selected) prev
  | None => prev
  end.

End Dashboard.

Import Codec Live.

(** * Facts about the codec *)

Lemma int16_le_roundtrip (v : Z) :
  -32768 <= v <= 32767 ->
  match int16_to_le v with
  | [lo; hi] => int16_of_le lo hi = v
  | _ => False
  end.
Proof.
  intros Hv. unfold int16_to_le, int16_of_le. cbv zeta.
  assert (Hu : (v mod 65536) mod 256 + 256 * (v mod 65536 / 256) = v mod 65536).
  { pose proof (Z.div_mod (v mod 65536) 256). lia. }
  rewrite Hu.
  destruct (Z.ltb_spec (v mod 65536) 32768) as [Hlt | Hge].
  - destruct (Z_lt_le_dec v 0) as [Hneg | Hpos].
    + assert (v mod 65536 = v + 65536)
        by (symmetry; apply Z.mod_unique with (q := -1); lia).
      lia.
    + apply Z.mod_small. lia.
  - destruct (Z_lt_le_dec v 0) as [Hneg | Hpos].
    + assert (v mod 65536 = v + 65536)
        by (symmetry; apply Z.mod_unique with (q := -1); lia).
      lia.
    + rewrite Z.mod_small in Hge by lia. lia.
Qed.

Lemma clamp_bounds (s : Q) : (-1 <= clamp s (-1) 1 <= 1)%Q.
Proof.
  unfold clamp, Qmax', Qmin'.
  destruct (Qle_bool s 1) eqn:H1.
  - apply Qle_bool_iff in H1.
    destruct (Qle_bool (-1) s) eqn:H2.
    + apply Qle_bool_iff in H2. split; assumption.
    + split; lra.
  - destruct (Qle_bool (-1) 1) eqn:H2; [ split; lra | discriminate H2 ].
Qed.

Lemma clamp_id (s : Q) : (-1 <= s <= 1)%Q -> clamp s (-1) 1 = s.
Proof.
  intros [Hlo Hhi]. unfold clamp, Qmax', Qmin'.
  apply Qle_bool_iff in Hlo, Hhi. now rewrite Hhi, Hlo.
Qed.

Lemma round_close (x : Q) :
  (inject_Z (round x) - (1 # 2) <= x /\ x < inject_Z (round x) + (1 # 2))%Q.
Proof.
  unfold round.
  pose proof (Qfloor_le (x + (1 # 2))) as Hle.
  pose proof (Qlt_floor (x + (1 # 2))) as Hlt.
  rewrite inject_Z_plus in Hlt. change (inject_Z 1) with 1%Q in Hlt.
  split; lra.
Qed.

Lemma round_range (x : Q) (n : Z) :
  (- inject_Z n <= x <= inject_Z n)%Q -> - n <= round x <= n.
Proof.
  intros [Hlo Hhi]. destruct (round_close x) as [H1 H2].
  split.
  - apply Z.lt_pred_le. rewrite Zlt_Qlt.
    unfold Z.pred. rewrite inject_Z_plus, inject_Z_opp.
    change (inject_Z (-1)) with (-1)%Q. lra.
  - apply Z.lt_succ_r. rewrite Zlt_Qlt.
    unfold Z.succ. rewrite inject_Z_plus. change (inject_Z 1) with 1%Q. lra.
Qed.

Lemma quantize_range (s : Q) : -32767 <= quantize s <= 32767.
Proof.
  unfold quantize. apply (round_range _ 32767).
  pose proof (clamp_bounds s) as [Hlo Hhi].
  change (inject_Z 32767) with 32767%Q. split; lra.
Qed.

Lemma quantize_close (s : Q) :
  (-1 <= s <= 1)%Q -> (Qabs ((quantize s # 32768) - s) <= 3 # 65536)%Q.
Proof.
  intros Hs. unfold quantize. rewrite (clamp_id s Hs).
  destruct (round_close (s * 32767)) as [H1 H2].
  set (q := round (s * 32767)) in *.
  rewrite (Qmake_Qdiv q 32768).
  change (inject_Z (Z.pos 32768)) with 32768%Q.
  apply Qabs_Qle_condition. destruct Hs as [Hlo Hhi].
  generalize dependent (inject_Z q). intros z H1 H2.
  assert (Hdiv : (z / 32768 == z * (1 # 32768))%Q) by (field; discriminate).
  rewrite Hdiv. split; lra.
Qed.

Lemma decode_words_encode (l : list Q) :
  decode_words (flat_map (fun s => int16_to_le (quantize s)) l)
  = map (fun s => quantize s # 32768)%Q l.
Proof.
  induction l as [| s l IH]; [ reflexivity | ].
  pose proof (int16_le_roundtrip (quantize s)) as Hrt.
  pose proof (quantize_range s) as Hr.
  cbn [flat_map map].
  unfold int16_to_le in *. cbv zeta in *. cbn [app decode_words].
  rewrite Hrt by lia. now rewrite IH.
Qed.

Lemma length_encodePcm16 (b : SampleBuffer) :
  length (encodePcm16 b) = (2 * length (samples b))%nat.
Proof.
  unfold encodePcm16. induction (samples b) as [| s l IH]; [ reflexivity | ].
  cbn [flat_map]. rewrite length_app, IH. cbn. lia.
Qed.

(** C8 (as amended). Round trip of the PCM16 codec: for a buffer of whole
    frames whose samples lie in [-1, 1], decoding its encoding at its own
    rate and channel count succeeds, keeps rate, channel count and sample
    count, and moves no sample by more than 3/65536 (one and a half
    quantisation steps of 1/32768). *)
Theorem pcm16_roundtrip_bound (b : SampleBuffer) :
  in_range b -> whole_frames b ->
  exists b',
    decodePcm16 (encodePcm16 b) (rate b) (channels b) = inr b' /\
    within (3 # 65536) b b'.
Proof.
  intros Hr Hw. unfold decodePcm16.
  assert (Hlen : (N.of_nat (length (encodePcm16 b)) mod (2 * channels b) = 0)%N).
  { rewrite length_encodePcm16, Nat2N.inj_mul.
    change (N.of_nat 2) with 2%N.
    rewrite N.Div0.mul_mod_distr_l. unfold whole_frames in Hw.
    rewrite Hw. reflexivity. }
  rewrite Hlen. cbn [N.eqb].
  eexists; split; [ reflexivity | ].
  unfold within; cbn [rate channels samples].
  split; [ reflexivity | split; [ reflexivity | ] ].
  unfold encodePcm16. rewrite decode_words_encode.
  unfold in_range in Hr.
  induction Hr as [| s l Hs _ IH]; cbn [map]; constructor.
  - now apply quantize_close.
  - exact IH.
Qed.

Lemma pcm16_roundtrip_bound_witness :
  let b := mkSampleBuffer [1 # 2; - (1 # 4)]%Q 16000 1 in
  in_range b /\ whole_frames b /\
  exists b',
    decodePcm16 (encodePcm16 b) (rate b) (channels b) = inr b' /\
    within (3 # 65536) b b'.
Proof.
  cbv zeta.
  assert (Hr : in_range (mkSampleBuffer [1 # 2; - (1 # 4)]%Q 16000 1)).
  { unfold in_range; cbn [samples].
    repeat constructor; unfold Qle; simpl; lia. }
  assert (Hw : whole_frames (mkSampleBuffer [1 # 2; - (1 # 4)]%Q 16000 1)).
  { reflexivity. }
  split; [ exact Hr | split; [ exact Hw | ] ].
  exact (pcm16_roundtrip_bound _ Hr Hw).
Defined.

(** C8 (as stated) fails: the in-range sample 256003/262144 is encoded as
    31999 and decoded as 31999/32768, which is 11/262144 away from it,
    more than 1/32768 = 8/262144. *)
Lemma pcm16_roundtrip_exceeds_one_step :
  let b := mkSampleBuffer [256003 # 262144]%Q 16000 1 in
  in_range b /\
  decodePcm16 (encodePcm16 b) (rate b) (channels b)
    = inr (mkSampleBuffer [31999 # 32768]%Q 16000 1) /\
  ~ within (1 # 32768) b (mkSampleBuffer [31999 # 32768]%Q 16000 1).
Proof.
  cbv zeta. split; [ | split ].
  - unfold in_range; cbn [samples].
    repeat constructor; unfold Qle; simpl; lia.
  - vm_compute. reflexivity.
  - intros (_ & _ & H). cbn [samples] in H.
    inversion H as [| ? ? ? ? Hab _]; subst.
    vm_compute in Hab. apply Hab. reflexivity.
Qed.

(** * Facts about the playback path *)

Lemma Qmax_ge_l (a b : Q) : (a <= Qmax a b)%Q.
Proof.
  unfold Qmax. destruct (Qle_bool a b) eqn:H.
  - now apply Qle_bool_iff.
  - apply Qle_refl.
Qed.

Lemma Qmax_ge_r (a b : Q) : (b <= Qmax a b)%Q.
Proof.
  unfold Qmax. destruct (Qle_bool a b) eqn:H.
  - apply Qle_refl.
  - destruct (Qlt_le_dec b a) as [Hlt | Hle].
    + now apply Qlt_le_weak.
    + apply Qle_bool_iff in Hle. congruence.
Qed.

Lemma Qmax_r (a b : Q) : (a <= b)%Q -> Qmax a b = b.
Proof. intros H. unfold Qmax. apply Qle_bool_iff in H. now rewrite H. Qed.

Lemma Qmax_l (a b : Q) : (b <= a)%Q -> (Qmax a b == a)%Q.
Proof.
  intros H. unfold Qmax. destruct (Qle_bool a b) eqn:Hab.
  - apply Qle_bool_iff in Hab. now apply Qle_antisym.
  - reflexivity.
Qed.

Lemma duration_nonneg (b : AudioBuffer) : (0 <= duration b)%Q.
Proof. unfold duration, Qle. simpl. lia. Qed.

(** The state in which the cursor has been raised to the clock. *)
Lemma scheduleForPlayback_decoded decodeAudio now s buf st :
  decodeAudio s = Some buf ->
  scheduleForPlayback decodeAudio now s st
  = Done (fresh (dom (nodes (host st))))
         (snd (scheduleDecoded buf
            (on_refs (set_nextStartTime (Qmax (cursor st) now)) st))).
Proof.
  intros Hd. unfold scheduleForPlayback, bind, modify. rewrite Hd.
  reflexivity.
Qed.

Lemma scheduleForPlayback_failed decodeAudio now s st :
  decodeAudio s = None ->
  scheduleForPlayback decodeAudio now s st
  = Thrown (on_refs (set_nextStartTime (Qmax (cursor st) now)) st).
Proof.
  intros Hd. unfold scheduleForPlayback, bind, modify. rewrite Hd.
  reflexivity.
Qed.

Lemma fresh_node_unused (st : State) :
  nodes (host st) !! fresh (dom (nodes (host st))) = None.
Proof. apply not_elem_of_dom. apply is_fresh. Qed.

(** What one scheduling call does, field by field. *)
Lemma scheduleForPlayback_step decodeAudio now s buf st :
  decodeAudio s = Some buf ->
  exists h st',
    scheduleForPlayback decodeAudio now s st = Done h st' /\
    nodes (host st) !! h = None /\
    nodes (host st') = <[h := mkSourceNode (Some buf)
                               (Some (Qmax (cursor st) now)) false]>
                         (nodes (host st)) /\
    cursor st' = (Qmax (cursor st) now + duration buf)%Q /\
    active st' = {[h]} ∪ active st /\
    ui st' = ui st /\ clo st' = clo st.
Proof.
  intros Hd. eexists _, _. split.
  - apply scheduleForPlayback_decoded, Hd.
  - split; [ apply fresh_node_unused | ].
    repeat split.
Qed.

Lemma startOf_insert_eq st st' h n :
  nodes (host st') = <[h := n]> (nodes (host st)) ->
  startOf st' h = sn_startedAt n.
Proof. intros H. unfold startOf. rewrite H, lookup_insert_eq. reflexivity. Qed.

Lemma startOf_insert_ne st st' h h' n :
  nodes (host st') = <[h := n]> (nodes (host st)) -> h <> h' ->
  startOf st' h' = startOf st h'.
Proof.
  intros H Hne. unfold startOf. rewrite H, lookup_insert_ne by exact Hne.
  reflexivity.
Qed.

Lemma startOf_Some_used st h t :
  startOf st h = Some t -> nodes (host st) !! h <> None.
Proof. intros Hs Hn. unfold startOf in Hs. rewrite Hn in Hs. inversion Hs. Qed.

Lemma ended_removes (h : nat) (st : State) : h ∉ active (ended h st).
Proof.
  unfold active, ended. cbn. intros Hin.
  apply elem_of_difference in Hin as [_ Hn]. apply Hn.
  now apply elem_of_singleton.
Qed.

(** One call, seen through [startOf]: the new handle starts at the raised
    cursor and the handles that existed keep their start. *)
Lemma scheduleForPlayback_starts decodeAudio now s buf st :
  decodeAudio s = Some buf ->
  exists h st',
    scheduleForPlayback decodeAudio now s st = Done h st' /\
    nodes (host st) !! h = None /\
    startOf st' h = Some (Qmax (cursor st) now) /\
    (forall h', nodes (host st) !! h' <> None ->
                nodes (host st') !! h' <> None /\ startOf st' h' = startOf st h') /\
    cursor st' = (Qmax (cursor st) now + duration buf)%Q /\
    active st' = {[h]} ∪ active st.
Proof.
  intros Hd.
  destruct (scheduleForPlayback_step decodeAudio now s buf st Hd)
    as (h & st' & Hrun & Hfresh & Hnodes & Hcur & Hact & _).
  exists h, st'. repeat split; try assumption.
  - now rewrite (startOf_insert_eq st st' h _ Hnodes).
  - rewrite Hnodes. rewrite lookup_insert_ne; [ assumption | congruence ].
  - apply (startOf_insert_ne st st' h h' _ Hnodes). congruence.
Qed.

(** [scheduleForPlayback], with nothing running during its await, on a
    payload that decodes to [b1]: the
    start is [max(nextStartTime, now)], a fresh source node holds the
    buffer and is started there, the cursor becomes start plus duration,
    the node joins the active set and its ['ended'] listener removes it.
    Three payloads scheduled one after the other, each arriving no later
    than the cursor left by the previous one, start at [t0], [t0 + d1]
    and [t0 + d1 + d2] with [t0] not before the first clock reading; a
    payload arriving after the cursor starts at the clock reading. *)
Lemma scheduleForPlayback_gapless decodeAudio now1 now2 now3 s1 s2 s3 b1 b2 b3 st :
  decodeAudio s1 = Some b1 ->
  decodeAudio s2 = Some b2 ->
  decodeAudio s3 = Some b3 ->
  let t0 := Qmax (cursor st) now1 in
  exists h1 st1,
    scheduleForPlayback decodeAudio now1 s1 st = Done h1 st1 /\
    nodes (host st) !! h1 = None /\
    nodes (host st1) !! h1 = Some (mkSourceNode (Some b1) (Some t0) false) /\
    cursor st1 = (t0 + duration b1)%Q /\
    active st1 = {[h1]} ∪ active st /\
    (h1 ∉ active (ended h1 st1)) /\
    (now1 <= t0)%Q /\
    ((cursor st < now1)%Q -> startOf st1 h1 = Some now1) /\
    ((now2 <= t0 + duration b1)%Q ->
     (now3 <= t0 + duration b1 + duration b2)%Q ->
     exists h2 st2 h3 st3 t1 t2,
       scheduleForPlayback decodeAudio now2 s2 st1 = Done h2 st2 /\
       scheduleForPlayback decodeAudio now3 s3 st2 = Done h3 st3 /\
       h1 <> h2 /\ h1 <> h3 /\ h2 <> h3 /\
       startOf st3 h1 = Some t0 /\
       startOf st3 h2 = Some t1 /\ (t1 == t0 + duration b1)%Q /\
       startOf st3 h3 = Some t2 /\
       (t2 == t0 + duration b1 + duration b2)%Q /\
       (cursor st3 == t0 + duration b1 + duration b2 + duration b3)%Q /\
       active st3 = {[h3]} ∪ ({[h2]} ∪ ({[h1]} ∪ active st))).
Proof.
  intros Hd1 Hd2 Hd3 t0.
  destruct (scheduleForPlayback_step decodeAudio now1 s1 b1 st Hd1)
    as (h1 & st1 & Hrun1 & Hfresh1 & Hnodes1 & Hcur1 & Hact1 & _).
  exists h1, st1.
  assert (Hstart1 : startOf st1 h1 = Some t0)
    by now rewrite (startOf_insert_eq st st1 h1 _ Hnodes1).
  assert (Hused1 : nodes (host st1) !! h1 <> None)
    by (rewrite Hnodes1, lookup_insert_eq; discriminate).
  repeat match goal with |- _ /\ _ => split end; try assumption.
  - rewrite Hnodes1. apply lookup_insert_eq.
  - apply ended_removes.
  - apply Qmax_ge_r.
  - intros Hlate. rewrite Hstart1. unfold t0.
    now rewrite (Qmax_r _ _ (Qlt_le_weak _ _ Hlate)).
  - intros Hnow2 Hnow3.
    destruct (scheduleForPlayback_starts decodeAudio now2 s2 b2 st1 Hd2)
      as (h2 & st2 & Hrun2 & Hfresh2 & Hstart2 & Hold2 & Hcur2 & Hact2).
    destruct (scheduleForPlayback_starts decodeAudio now3 s3 b3 st2 Hd3)
      as (h3 & st3 & Hrun3 & Hfresh3 & Hstart3 & Hold3 & Hcur3 & Hact3).
    destruct (Hold2 h1 Hused1) as [Hused12 Hkeep12].
    destruct (Hold3 h1 Hused12) as [_ Hkeep13].
    assert (Hused2 : nodes (host st2) !! h2 <> None)
      by (apply (startOf_Some_used st2 h2 _ Hstart2)).
    destruct (Hold3 h2 Hused2) as [_ Hkeep23].
    assert (Ht1 : (Qmax (cursor st1) now2 == t0 + duration b1)%Q).
    { rewrite Qmax_l; rewrite Hcur1; [ reflexivity | exact Hnow2 ]. }
    assert (Hc2 : (cursor st2 == t0 + duration b1 + duration b2)%Q).
    { rewrite Hcur2, Ht1. reflexivity. }
    assert (Ht2 : (Qmax (cursor st2) now3 == t0 + duration b1 + duration b2)%Q).
    { rewrite Qmax_l; rewrite Hc2; [ reflexivity | exact Hnow3 ]. }
    exists h2, st2, h3, st3, (Qmax (cursor st1) now2), (Qmax (cursor st2) now3).
    repeat match goal with |- _ /\ _ => split end; try assumption.
    + congruence.
    + congruence.
    + congruence.
    + now rewrite Hkeep13, Hkeep12.
    + now rewrite Hkeep23.
    + rewrite Hcur3, Ht2. reflexivity.
    + rewrite Hact3, Hact2, Hact1. reflexivity.
Qed.

(** [stop] on every member of the set, and on nothing else. *)
Lemma stopAll_lookup (srcs : gset nat) (ns : gmap nat SourceNode) (h : nat) :
  stopAll srcs ns !! h
  = if decide (h ∈ srcs) then sn_stop <$> ns !! h else ns !! h.
Proof.
  unfold stopAll, set_fold. cbn.
  assert (Hgen : forall l : list nat,
    foldr (fun id acc => alter sn_stop id acc) ns l !! h
    = if decide (h ∈ l) then sn_stop <$> ns !! h else ns !! h).
  { induction l as [| a l IH]; cbn [foldr].
    - destruct (decide (h ∈ [])) as [Hin | _]; [ | reflexivity ].
      now apply not_elem_of_nil in Hin.
    - destruct (decide (a = h)) as [-> | Hne].
      + rewrite lookup_alter_eq, IH.
        destruct (decide (h ∈ h :: l)) as [_ | Hn];
          [ | exfalso; apply Hn; apply list_elem_of_here ].
        destruct (decide (h ∈ l)); [ | reflexivity ].
        now destruct (ns !! h).
      + rewrite lookup_alter_ne by exact Hne. rewrite IH.
        destruct (decide (h ∈ l)) as [Hl | Hl],
                 (decide (h ∈ a :: l)) as [Hal | Hal];
          try reflexivity.
        * exfalso. apply Hal. now apply list_elem_of_further.
        * exfalso. apply elem_of_cons in Hal as [-> | Hal];
            [ now apply Hne | now apply Hl ]. }
  rewrite Hgen.
  destruct (decide (h ∈ elements srcs)) as [He | He],
           (decide (h ∈ srcs)) as [Hs | Hs];
    try reflexivity; exfalso.
  - apply Hs. now apply elem_of_elements.
  - apply He. now apply elem_of_elements.
Qed.

Lemma interrupt_fields (st : State) :
  active (interrupt st) = ∅ /\
  cursor (interrupt st) = 0%Q /\
  nodes (host (interrupt st)) = stopAll (active st) (nodes (host st)) /\
  ui (interrupt st) = ui st /\ clo (interrupt st) = clo st.
Proof. repeat split. Qed.

Lemma onmessage_interruption decodeAudio now st :
  mounted (clo st) = true ->
  onmessage decodeAudio now interruptionMessage st = Done tt (interrupt st).
Proof.
  intros Hm. unfold onmessage, bind, get. rewrite Hm. cbn.
  destruct (outputAudioContextRef (refs st)); reflexivity.
Qed.

(** The interruption branch stops every source node of the active
    set (and no other node), empties the set and puts the cursor back to
    0; it is what a mounted component does with an interruption message.
    Whatever was scheduled before, the next [scheduleForPlayback] that
    nothing overlaps, at a clock reading [now >= 0], starts at [now]. *)
Lemma interrupt_flushes decodeAudio now s buf st :
  (0 <= now)%Q ->
  decodeAudio s = Some buf ->
  (forall h n, h ∈ active st -> nodes (host st) !! h = Some n ->
     nodes (host (interrupt st)) !! h = Some (sn_stop n) /\
     isStopped (interrupt st) h = true) /\
  (forall h, h ∉ active st ->
     nodes (host (interrupt st)) !! h = nodes (host st) !! h) /\
  active (interrupt st) = ∅ /\
  cursor (interrupt st) = 0%Q /\
  (mounted (clo st) = true ->
   forall now', onmessage decodeAudio now' interruptionMessage st
                = Done tt (interrupt st)) /\
  exists h st',
    scheduleForPlayback decodeAudio now s (interrupt st) = Done h st' /\
    startOf st' h = Some now /\
    active st' = {[h]}.
Proof.
  intros Hnow Hd.
  destruct (interrupt_fields st) as (Hact & Hcur & Hnodes & _).
  repeat match goal with |- _ /\ _ => split end; try assumption.
  - intros h n Hin Hn. rewrite Hnodes.
    assert (Hl : stopAll (active st) (nodes (host st)) !! h = Some (sn_stop n)).
    { rewrite stopAll_lookup.
      destruct (decide (h ∈ active st)) as [_ | Hno]; [ | contradiction ].
      rewrite Hn. reflexivity. }
    split; [ exact Hl | ].
    unfold isStopped. rewrite Hnodes, Hl. reflexivity.
  - intros h Hh. rewrite Hnodes, stopAll_lookup.
    destruct (decide (h ∈ active st)); [ contradiction | reflexivity ].
  - intros Hm now'. now apply onmessage_interruption.
  - destruct (scheduleForPlayback_starts decodeAudio now s buf (interrupt st) Hd)
      as (h & st' & Hrun & _ & Hstart & _ & _ & Hact').
    exists h, st'. split; [ exact Hrun | split ].
    + rewrite Hstart, Hcur. now rewrite (Qmax_r 0 now Hnow).
    + rewrite Hact', Hact. apply union_empty_r_L.
Qed.

(** * Callbacks that leave part of the state alone *)

Section Keeps.

Variable R : State -> State -> Prop.
Hypothesis R_refl : forall st, R st st.
Hypothesis R_trans : forall a b c, R a b -> R b c -> R a c.

Lemma keeps_ret {A} (a : A) : keeps R (ret a).
Proof. intros st. apply R_refl. Qed.

Lemma keeps_throw {A} : keeps R (@throw A).
Proof. intros st. apply R_refl. Qed.

Lemma keeps_get {A} (f : State -> A) : keeps R (get f).
Proof. intros st. apply R_refl. Qed.

Lemma keeps_modify (f : State -> State) :
  (forall st, R st (f st)) -> keeps R (modify f).
Proof. intros Hf st. apply Hf. Qed.

Lemma keeps_bind {A B} (c : M A) (k : A -> M B) :
  keeps R c -> (forall a, keeps R (k a)) -> keeps R (bind c k).
Proof.
  intros Hc Hk st. unfold bind. specialize (Hc st).
  destruct (c st) as [a st' | st']; cbn in *.
  - eapply R_trans; [ exact Hc | apply Hk ].
  - exact Hc.
Qed.

Lemma keeps_when (b : bool) (c : M unit) : keeps R c -> keeps R (when b c).
Proof. intros Hc. destruct b; [ exact Hc | apply keeps_ret ]. Qed.

Lemma keeps_call (hc : HostCall) (r : CallResult) :
  (forall st, R st (on_host (push_call hc) st)) -> keeps R (call hc r).
Proof.
  intros Hp. unfold call. apply keeps_bind.
  - now apply keeps_modify.
  - intros _. destruct r; first [ apply keeps_ret | apply keeps_throw ].
Qed.

Lemma keeps_disconnect (rs ri ro : CallResult) :
  (forall hc st, R st (on_host (push_call hc) st)) ->
  (forall st, R st (on_ui (setIsConnected false) st)) ->
  keeps R (disconnect rs ri ro).
Proof.
  intros Hcall Hui. unfold disconnect.
  repeat first
    [ apply keeps_call; intros; apply Hcall
    | apply keeps_bind; [ | intros ? ]
    | apply keeps_get
    | apply keeps_when
    | apply keeps_modify; exact Hui
    | apply keeps_ret
    | match goal with |- keeps R (match ?a with _ => _ end) => destruct a end
    | match goal with |- keeps R (if ?a then _ else _) => destruct a end ].
Qed.

End Keeps.

(** Teardown touches neither the refs of the playback path nor the
    closure's capture state. *)
Lemma disconnect_refs rs ri ro st :
  refs (final (disconnect rs ri ro st)) = refs st.
Proof.
  apply (keeps_disconnect (fun a b => refs b = refs a)); try reflexivity.
  intros a b c Hab Hbc. congruence.
Qed.

Lemma cleanup_refs rs ri ro st :
  refs (final (cleanup rs ri ro st)) = refs st.
Proof.
  unfold cleanup, bind, modify.
  apply (disconnect_refs rs ri ro (on_clo (set_mounted false) st)).
Qed.

Lemma scheduleForPlayback_cursor_le decodeAudio now s st :
  (cursor st <= cursor (final (scheduleForPlayback decodeAudio now s st)))%Q.
Proof.
  destruct (decodeAudio s) as [buf |] eqn:Hd.
  - rewrite (scheduleForPlayback_decoded _ _ _ _ _ Hd). cbn.
    pose proof (Qmax_ge_l (cursor st) now). pose proof (duration_nonneg buf).
    unfold cursor in *. lra.
  - rewrite (scheduleForPlayback_failed _ _ _ _ Hd). cbn.
    apply Qmax_ge_l.
Qed.

Lemma onmessage_cursor decodeAudio now message st :
  (cursor st <= cursor (final (onmessage decodeAudio now message st)))%Q \/
  (interruptedOf message = true /\
   cursor (final (onmessage decodeAudio now message st)) = 0%Q).
Proof.
  unfold onmessage, bind, get.
  destruct (mounted (clo st)); cbn [negb]; [ | left; apply Qle_refl ].
  set (sched := match base64AudioOf message with
                | Some base64Audio =>
                    match outputAudioContextRef (refs st) with
                    | Some _ => _ | None => _ end
                | None => _ end).
  assert (Hs : (cursor st <= cursor (final (sched st)))%Q).
  { subst sched. destruct (base64AudioOf message) as [s |];
      [ | apply Qle_refl ].
    destruct (outputAudioContextRef (refs st)); [ | apply Qle_refl ].
    destruct (truthy s); [ | apply Qle_refl ].
    pose proof (scheduleForPlayback_cursor_le decodeAudio now s st) as Hle.
    destruct (scheduleForPlayback decodeAudio now s st); exact Hle. }
  destruct (sched st) as [[] st1 | st1]; cbn in Hs |- *; [ | now left ].
  destruct (interruptedOf message); cbn.
  - right. split; reflexivity.
  - now left.
Qed.

(** C5. Across one step of the component, whatever the event, the cursor
    does not decrease, unless the event is a message carrying the
    interrupted flag, which may leave it at 0. In particular a scheduling
    call never lowers it, also when decoding fails, the ['ended']
    listener leaves it alone, and the interruption branch sets it to 0. *)
Theorem cursor_monotone decodeAudio st ev :
  ((cursor st <= cursor (step decodeAudio st ev))%Q \/
   (interrupts ev = true /\ cursor (step decodeAudio st ev) = 0%Q)) /\
  (forall now s,
     (cursor st <= cursor (final (scheduleForPlayback decodeAudio now s st)))%Q) /\
  (forall h, cursor (ended h st) = cursor st) /\
  cursor (interrupt st) = 0%Q.
Proof.
  split; [ | split; [ | split ] ].
  - destruct ev as [ | | | | inputData | now message | source | | | | rs ri ro | rs ri ro ];
      cbn [step interrupts].
    6: { destruct (connectCalled st); [ | left; apply Qle_refl ].
         apply onmessage_cursor. }
    10: { left. unfold cursor. rewrite disconnect_refs. apply Qle_refl. }
    10: { left. unfold cursor. rewrite cleanup_refs. apply Qle_refl. }
    all: left;
      unfold micGranted, micDenied, onopen, sessionFulfilled, audioprocess,
        thenSend, onclose, onerror, toggleMute, ended;
      repeat match goal with
             | |- context [if ?b then _ else _] => destruct b
             | |- context [match sessionPromise ?c with _ => _ end] =>
                 destruct (sessionPromise c)
             end;
      apply Qle_refl.
  - intros now s. apply scheduleForPlayback_cursor_le.
  - reflexivity.
  - reflexivity.
Qed.

(** [onmessage] on a mounted component, by cases on the guard. *)
Lemma onmessage_mounted decodeAudio now m st :
  mounted (clo st) = true ->
  onmessage decodeAudio now m st =
  let after st1 := Done tt (if interruptedOf m then interrupt st1 else st1) in
  match base64AudioOf m, outputAudioContextRef (refs st) with
  | Some s, Some _ =>
      if truthy s
      then match scheduleForPlayback decodeAudio now s st with
           | Done _ st1 => after st1
           | Thrown st1 => Thrown st1
           end
      else after st
  | _, _ => after st
  end.
Proof.
  intros Hm. unfold onmessage, bind, get. rewrite Hm. cbn [negb].
  destruct (base64AudioOf m) as [s |];
    [ destruct (outputAudioContextRef (refs st)); [ destruct (truthy s) | ] | ];
    try (cbn; destruct (interruptedOf m); reflexivity).
  destruct (scheduleForPlayback decodeAudio now s st); [ | reflexivity ].
  cbn. destruct (interruptedOf m); reflexivity.
Qed.

Lemma onmessage_unmounted decodeAudio now m st :
  mounted (clo st) = false ->
  onmessage decodeAudio now m st = Done tt st.
Proof. intros Hm. unfold onmessage, bind, get. now rewrite Hm. Qed.

Lemma base64AudioOf_audioMessage s intr :
  base64AudioOf (audioMessage s intr) = Some s.
Proof. reflexivity. Qed.

(** C10 (as amended). On a mounted component, a message with the
    interrupted flag: whenever the handler completes, the active set is
    empty and the cursor is 0. If the message also carries an audio
    payload that decodes, the payload is scheduled first (a handle is
    created, started and added) and the interruption then stops that
    very handle; if it carries none, the handler is the interruption
    alone; if decoding fails the handler does not complete. *)
Theorem interrupted_message_flushes decodeAudio now message st :
  mounted (clo st) = true ->
  interruptedOf message = true ->
  (forall st', onmessage decodeAudio now message st = Done tt st' ->
     active st' = ∅ /\ cursor st' = 0%Q) /\
  (forall s c buf,
     base64AudioOf message = Some s -> truthy s = true ->
     outputAudioContextRef (refs st) = Some c ->
     decodeAudio s = Some buf ->
     exists h st1,
       scheduleForPlayback decodeAudio now s st = Done h st1 /\
       onmessage decodeAudio now message st = Done tt (interrupt st1) /\
       h ∈ active st1 /\
       startOf (interrupt st1) h = Some (Qmax (cursor st) now) /\
       isStopped (interrupt st1) h = true) /\
  (forall s c,
     base64AudioOf message = Some s -> truthy s = true ->
     outputAudioContextRef (refs st) = Some c ->
     decodeAudio s = None ->
     completes (onmessage decodeAudio now message st) = false) /\
  ((forall s, base64AudioOf message = Some s -> truthy s = true ->
              outputAudioContextRef (refs st) = None) ->
   onmessage decodeAudio now message st = Done tt (interrupt st)).
Proof.
  intros Hm Hi.
  pose proof (onmessage_mounted decodeAudio now message st Hm) as Hon.
  cbv zeta in Hon. rewrite Hi in Hon.
  repeat match goal with |- _ /\ _ => split end.
  - intros st' Hdone. rewrite Hon in Hdone.
    destruct (base64AudioOf message) as [s |];
      [ destruct (outputAudioContextRef (refs st)); [ destruct (truthy s) | ] | ];
      try (inversion Hdone; subst; split; reflexivity).
    destruct (scheduleForPlayback decodeAudio now s st);
      inversion Hdone; subst; split; reflexivity.
  - intros s c buf Hb Ht Hc Hd.
    destruct (scheduleForPlayback_starts decodeAudio now s buf st Hd)
      as (h & st1 & Hrun & Hfresh & Hstart & _ & _ & Hact).
    assert (Hin : h ∈ active st1).
    { rewrite Hact. apply elem_of_union_l. now apply elem_of_singleton. }
    exists h, st1. repeat match goal with |- _ /\ _ => split end;
      try assumption.
    + rewrite Hon, Hb, Hc, Ht, Hrun. reflexivity.
    + unfold startOf in *. cbn.
      rewrite stopAll_lookup.
      destruct (decide (h ∈ sourcesRef (refs st1))) as [_ | Hn];
        [ | contradiction ].
      destruct (nodes (host st1) !! h); [ exact Hstart | discriminate Hstart ].
    + unfold isStopped, startOf in *. cbn.
      rewrite stopAll_lookup.
      destruct (decide (h ∈ sourcesRef (refs st1))) as [_ | Hn];
        [ | contradiction ].
      destruct (nodes (host st1) !! h); [ reflexivity | discriminate Hstart ].
  - intros s c Hb Ht Hc Hd.
    rewrite Hon, Hb, Hc, Ht, (scheduleForPlayback_failed _ _ _ _ Hd).
    reflexivity.
  - intros Hnone. rewrite Hon.
    destruct (base64AudioOf message) as [s |]; [ | reflexivity ].
    destruct (outputAudioContextRef (refs st)) eqn:Hc; [ | reflexivity ].
    destruct (truthy s) eqn:Ht; [ | reflexivity ].
    specialize (Hnone s eq_refl Ht). discriminate Hnone.
Qed.

Ltac run_disconnect :=
  unfold disconnect, bind, get, when, call, modify; cbn.

(** C4 (as amended). [disconnect] makes its releases in order (transport,
    capture context, playback context), each one only if its ref is set.
    When none of them throws (they return, or return a promise that
    rejects later) every one is made, [isConnected] is cleared, [onClose]
    is called and [disconnect] returns. A release that throws ends
    [disconnect] there: the releases after it are not made and the
    exception reaches the caller. *)
Theorem disconnect_releases rs ri ro st :
  rs <> Throws -> ri <> Throws -> ro <> Throws ->
  let s := sessionRef (refs st) in
  let i := bool_decide (is_Some (inputAudioContextRef (refs st))) in
  let o := bool_decide (is_Some (outputAudioContextRef (refs st))) in
  (exists st',
     disconnect rs ri ro st = Done tt st' /\
     calls (host st') =
       calls (host st) ++ callIf s CloseSession ++ callIf i CloseInputContext
         ++ callIf o CloseOutputContext
         ++ cancelCalls (animationFrameRef (refs st)) ++ [OnClose] /\
     isConnected (ui st') = false) /\
  (s = true -> forall ri' ro',
     exists st',
       disconnect Throws ri' ro' st = Thrown st' /\
       calls (host st') = calls (host st) ++ [CloseSession]) /\
  (i = true -> forall ro',
     exists st',
       disconnect rs Throws ro' st = Thrown st' /\
       calls (host st') =
         calls (host st) ++ callIf s CloseSession ++ [CloseInputContext]) /\
  (o = true ->
     exists st',
       disconnect rs ri Throws st = Thrown st' /\
       calls (host st') =
         calls (host st) ++ callIf s CloseSession ++ callIf i CloseInputContext
           ++ [CloseOutputContext]).
Proof.
  intros Hrs Hri Hro. cbv zeta.
  destruct st as [u [ic oc t srcs sess af] c h]. cbn [refs sessionRef
    inputAudioContextRef outputAudioContextRef animationFrameRef host].
  repeat match goal with |- _ /\ _ => split end.
  - run_disconnect.
    destruct sess, ic as [ic |], oc as [oc |], af as [[| n] |],
      rs, ri, ro; try contradiction; cbn;
      (eexists; split; [ reflexivity | split; [ | reflexivity ] ]);
      cbn; rewrite <- ?app_assoc; reflexivity.
  - intros -> ri' ro'. run_disconnect.
    eexists; split; reflexivity.
  - intros Hi ro'. run_disconnect.
    destruct ic as [ic |]; [ | discriminate Hi ].
    destruct sess, rs; try contradiction; cbn;
      (eexists; split; [ reflexivity | ]);
      cbn; rewrite <- ?app_assoc; reflexivity.
  - intros Ho. run_disconnect.
    destruct oc as [oc |]; [ | discriminate Ho ].
    destruct sess, ic as [ic |], rs, ri; try contradiction; cbn;
      (eexists; split; [ reflexivity | ]);
      cbn; rewrite <- ?app_assoc; reflexivity.
Qed.

(** * Facts about the capture path *)

Lemma onmessage_captureView decodeAudio now m st :
  captureView (final (onmessage decodeAudio now m st)) = captureView st.
Proof.
  destruct (mounted (clo st)) eqn:Hm.
  - rewrite (onmessage_mounted _ _ _ _ Hm). cbv zeta.
    destruct (base64AudioOf m) as [s |];
      [ destruct (outputAudioContextRef (refs st)); [ destruct (truthy s) | ] | ];
      try (destruct (interruptedOf m); reflexivity).
    unfold scheduleForPlayback, bind, modify.
    destruct (decodeAudio s); [ | reflexivity ].
    destruct (interruptedOf m); reflexivity.
  - now rewrite (onmessage_unmounted _ _ _ _ Hm).
Qed.

Lemma disconnect_captureView rs ri ro st :
  captureView (final (disconnect rs ri ro st)) = captureView st.
Proof.
  apply (keeps_disconnect (fun a b => captureView b = captureView a));
    try reflexivity.
  intros a b c Hab Hbc. congruence.
Qed.

Lemma cleanup_captureView rs ri ro st :
  captureView (final (cleanup rs ri ro st)) = captureView st.
Proof.
  unfold cleanup, bind, modify.
  apply (disconnect_captureView rs ri ro (on_clo (set_mounted false) st)).
Qed.

Lemma disconnect_isConnected rs ri ro st :
  isConnected (ui st) = false ->
  isConnected (ui (final (disconnect rs ri ro st))) = false.
Proof.
  revert st.
  apply (keeps_disconnect
    (fun a b => isConnected (ui a) = false -> isConnected (ui b) = false));
    auto.
Qed.

Lemma captureView_bound a b :
  captureView a = captureView b -> isMuted_bound (clo a) = isMuted_bound (clo b).
Proof. unfold captureView. congruence. Qed.

Lemma captureView_processor a b :
  captureView a = captureView b -> onaudioprocess (clo a) = onaudioprocess (clo b).
Proof. unfold captureView. congruence. Qed.

Lemma captureView_sent a b :
  captureView a = captureView b -> sent (host a) = sent (host b).
Proof. unfold captureView. congruence. Qed.

Lemma captureView_promise a b :
  captureView a = captureView b -> sessionPromise (clo a) = sessionPromise (clo b).
Proof. unfold captureView. congruence. Qed.

(** The closure never sees a different [isMuted]. *)
Lemma step_isMuted_bound decodeAudio st ev :
  isMuted_bound (clo (step decodeAudio st ev)) = isMuted_bound (clo st).
Proof.
  destruct ev as [ | | | | inputData | now message | source | | | | rs ri ro | rs ri ro ];
    cbn [step].
  6: { destruct (connectCalled st); [ | reflexivity ].
       apply captureView_bound, onmessage_captureView. }
  10: { apply captureView_bound, disconnect_captureView. }
  10: { apply captureView_bound, cleanup_captureView. }
  all: unfold micGranted, micDenied, onopen, sessionFulfilled, audioprocess,
         thenSend, onclose, onerror, toggleMute, ended;
    repeat match goal with
           | |- context [if ?b then _ else _] => destruct b eqn:?
           | |- context [match sessionPromise ?c with _ => _ end] =>
               destruct (sessionPromise c)
           end;
    cbn; congruence.
Qed.

Lemma run_isMuted_bound decodeAudio evs st :
  isMuted_bound (clo (run decodeAudio evs st)) = isMuted_bound (clo st).
Proof.
  revert st. induction evs as [| ev evs IH]; intros st; [ reflexivity | ].
  cbn [run fold_left]. fold (run decodeAudio evs (step decodeAudio st ev)).
  rewrite IH. apply step_isMuted_bound.
Qed.

Lemma step_quiet decodeAudio st ev :
  ev <> Open -> quiet st -> quiet (step decodeAudio st ev).
Proof.
  intros Hev (Hp & Hs & Hq & Hc). unfold quiet, queued in *.
  destruct ev as [ | | | | inputData | now message | source | | | | rs ri ro | rs ri ro ];
    cbn [step]; try contradiction.
  5: { destruct (connectCalled st); [ | tauto ].
       pose proof (onmessage_captureView decodeAudio now message st) as Hv.
       rewrite (captureView_processor _ _ Hv), (captureView_sent _ _ Hv),
         (captureView_promise _ _ Hv).
       repeat split; try assumption.
       destruct (mounted (clo st)) eqn:Hm.
       - rewrite (onmessage_mounted _ _ _ _ Hm). cbv zeta.
         destruct (base64AudioOf message) as [s |];
           [ destruct (outputAudioContextRef (refs st)); [ destruct (truthy s) | ] | ];
           try (destruct (interruptedOf message); exact Hc).
         unfold scheduleForPlayback, bind, modify.
         destruct (decodeAudio s); [ | exact Hc ].
         destruct (interruptedOf message); exact Hc.
       - now rewrite (onmessage_unmounted _ _ _ _ Hm). }
  9: { pose proof (disconnect_captureView rs ri ro st) as Hv.
       rewrite (captureView_processor _ _ Hv), (captureView_sent _ _ Hv),
         (captureView_promise _ _ Hv).
       repeat split; try assumption. now apply disconnect_isConnected. }
  9: { pose proof (cleanup_captureView rs ri ro st) as Hv.
       rewrite (captureView_processor _ _ Hv), (captureView_sent _ _ Hv),
         (captureView_promise _ _ Hv).
       repeat split; try assumption.
       unfold cleanup, bind, modify. now apply disconnect_isConnected. }
  all: unfold micGranted, micDenied, sessionFulfilled, onclose, onerror,
         toggleMute, ended.
  all: try rewrite Hp.
  all: repeat match goal with
           | |- context [if ?b then _ else _] => destruct b
           end.
  all: try (repeat split; assumption).
  - destruct (sessionPromise (clo st)) as [| thens |] eqn:Hpr; cbn;
      rewrite ?Hpr; try (repeat split; assumption).
    subst thens. rewrite Hs. repeat split; assumption.
Qed.

Lemma run_quiet decodeAudio evs st :
  Forall (fun ev => ev <> Open) evs -> quiet st ->
  quiet (run decodeAudio evs st).
Proof.
  intros Hall. revert st.
  induction Hall as [| ev evs Hev _ IH]; intros st Hq; [ exact Hq | ].
  cbn [run fold_left]. apply IH. now apply step_quiet.
Qed.

(** C6. As long as the transport has not called [onopen], whatever else
    happens (microphone granted, session promise fulfilled, ticks,
    messages, mute clicks, teardown), no blob has been passed to
    [sendRealtimeInput], none is queued behind the session promise,
    [onaudioprocess] is not installed and [isConnected] is false. *)
Theorem no_frame_before_open decodeAudio evs :
  Forall (fun ev => ev <> Open) evs ->
  let st := run decodeAudio evs mounted0 in
  sent (host st) = [] /\ queued st = [] /\
  onaudioprocess (clo st) = false /\ isConnected (ui st) = false.
Proof.
  intros Hall st.
  assert (Hq : quiet st).
  { apply run_quiet; [ exact Hall | ]. repeat split. }
  destruct Hq as (Hp & Hs & Hq & Hc). repeat split; assumption.
Qed.

Lemma captureView_connectCalled a b :
  captureView a = captureView b -> connectCalled a = connectCalled b.
Proof.
  intros Hv. unfold connectCalled. now rewrite (captureView_promise _ _ Hv).
Qed.

Lemma step_armed decodeAudio st ev : armed st -> armed (step decodeAudio st ev).
Proof.
  unfold armed. intros Ha.
  destruct ev as [ | | | | inputData | now message | source | | | | rs ri ro | rs ri ro ];
    cbn [step].
  6: { destruct (connectCalled st) eqn:Hc; [ | now rewrite Hc ].
       pose proof (onmessage_captureView decodeAudio now message st) as Hv.
       rewrite (captureView_connectCalled _ _ Hv). intros _. exact Hc. }
  10: { pose proof (disconnect_captureView rs ri ro st) as Hv.
        now rewrite (captureView_connectCalled _ _ Hv),
          (captureView_processor _ _ Hv). }
  10: { pose proof (cleanup_captureView rs ri ro st) as Hv.
        now rewrite (captureView_connectCalled _ _ Hv),
          (captureView_processor _ _ Hv). }
  all: unfold micGranted, micDenied, onopen, sessionFulfilled, audioprocess,
         thenSend, onclose, onerror, toggleMute, ended, connectCalled in *.
  all: repeat match goal with
           | |- context [if ?b then _ else _] => destruct b eqn:?
           | |- context [match sessionPromise ?c with _ => _ end] =>
               destruct (sessionPromise c) eqn:?
           end.
  all: cbn in *; try congruence; try tauto.
  all: match goal with
       | Hp : sessionPromise _ = _ |- _ => rewrite Hp in *
       end; try discriminate; tauto.
Qed.

Lemma run_armed decodeAudio evs st : armed st -> armed (run decodeAudio evs st).
Proof.
  revert st. induction evs as [| ev evs IH]; intros st Ha; [ exact Ha | ].
  cbn [run fold_left]. apply IH. now apply step_armed.
Qed.

(** A tick on a component whose closure saw [isMuted = false]. *)
Lemma audioprocess_unmuted inputData st :
  isMuted_bound (clo st) = false ->
  connectCalled st = true ->
  let v := MinSqrtTimes5 (meanSquare inputData) in
  let st' := audioprocess inputData st in
  published (host st') = published (host st) ++ [v] /\
  volume (ui st') = v /\
  forwarded st' = forwarded st ++ [createPcmBlob inputData] /\
  isMuted (ui st') = isMuted (ui st) /\
  micRequests (host st') = micRequests (host st) /\
  refs st' = refs st.
Proof.
  intros Hb Hc. cbv zeta. unfold audioprocess. rewrite Hb.
  unfold thenSend, forwarded, queued, connectCalled in *. cbn.
  destruct (sessionPromise (clo st)) as [| thens |] eqn:Hp;
    [ discriminate Hc | | ]; cbn; rewrite ?Hp;
    repeat split; rewrite <- ?app_assoc, ?app_nil_r; reflexivity.
Qed.

(** C9. In every state the mounted component can reach, the [isMuted]
    the tick handler tests is the one of the first render, false. So on
    every tick delivered once the transport has opened, with the mute
    button clicked any number of times before, and also right after one
    more click, the loudness is computed and published and the frame is
    handed to the transport; the click changes the [isMuted] state and
    nothing on the capture path. *)
Theorem mute_click_never_reaches_ticks decodeAudio evs inputData :
  let st := run decodeAudio evs mounted0 in
  onaudioprocess (clo st) = true ->
  let v := MinSqrtTimes5 (meanSquare inputData) in
  isMuted_bound (clo st) = false /\
  captureView (toggleMute st) = captureView st /\
  isMuted (ui (toggleMute st)) = negb (isMuted (ui st)) /\
  forall st1, st1 = st \/ st1 = toggleMute st ->
    let st2 := step decodeAudio st1 (AudioProcess inputData) in
    published (host st2) = published (host st) ++ [v] /\
    volume (ui st2) = v /\
    forwarded st2 = forwarded st ++ [createPcmBlob inputData] /\
    isMuted (ui st2) = isMuted (ui st1).
Proof.
  intros st Hon v.
  assert (Hb : isMuted_bound (clo st) = false)
    by (unfold st; now rewrite run_isMuted_bound).
  assert (Hc : connectCalled st = true).
  { apply (run_armed decodeAudio evs mounted0); [ | exact Hon ].
    intros Hfalse. discriminate Hfalse. }
  split; [ exact Hb | ]. split; [ reflexivity | ]. split; [ reflexivity | ].
  intros st1 [-> | ->]; cbv zeta; cbn [step].
  - rewrite Hon.
    destruct (audioprocess_unmuted inputData st Hb Hc)
      as (Hpub & Hvol & Hfwd & Hmute & _).
    repeat split; assumption.
  - change (onaudioprocess (clo (toggleMute st))) with (onaudioprocess (clo st)).
    rewrite Hon.
    destruct (audioprocess_unmuted inputData (toggleMute st) Hb Hc)
      as (Hpub & Hvol & Hfwd & Hmute & _).
    repeat split; assumption.
Qed.

Lemma mute_click_never_reaches_ticks_witness :
  let evs := [MicGranted; Open; SessionFulfilled; ToggleMute] in
  let st := run lengthDecoder evs mounted0 in
  onaudioprocess (clo st) = true /\
  isMuted (ui st) = true /\
  let st2 := step lengthDecoder st (AudioProcess [1 # 2]%Q) in
  published (host st2) = [MinSqrtTimes5 (1 # 4)] /\
  sent (host st2) = [mkPcmBlob [0; 64] 16000].
Proof.
  cbv zeta.
  pose proof (mute_click_never_reaches_ticks lengthDecoder
                [MicGranted; Open; SessionFulfilled; ToggleMute]
                [1 # 2]%Q eq_refl) as (_ & _ & _ & Htick).
  specialize (Htick _ (or_introl eq_refl)).
  destruct Htick as (Hpub & _ & Hfwd & _).
  split; [ reflexivity | split; [ reflexivity | ] ].
  split.
  - rewrite Hpub. vm_compute. reflexivity.
  - vm_compute. reflexivity.
Defined.

(** * Worked runs *)

(** C3, on the code: after the mute button was clicked ([isMuted] is
    true) a capture tick with samples 0.5, -0.5, 0.25 still publishes its
    loudness and still sends its encoded frame of 6 bytes; the microphone
    was requested once. *)
Theorem muted_tick_still_sends :
  let st := run lengthDecoder
              [MicGranted; Open; SessionFulfilled; ToggleMute;
               AudioProcess [1 # 2; - (1 # 2); 1 # 4]%Q] mounted0 in
  isMuted (ui st) = true /\
  length (published (host st)) = 1%nat /\
  sent (host st) = [mkPcmBlob [0; 64; 1; 192; 0; 32] 16000] /\
  micRequests (host st) = 1%nat.
Proof. cbv zeta. vm_compute. repeat split; reflexivity. Qed.

Lemma disconnect_releases_witness :
  let st := run lengthDecoder [MicGranted; Open; SessionFulfilled] mounted0 in
  exists st',
    disconnect Returns RejectsLater Returns st = Done tt st' /\
    calls (host st')
    = [CloseSession; CloseInputContext; CloseOutputContext; OnClose].
Proof.
  cbv zeta.
  assert (Hr : Returns <> Throws) by discriminate.
  assert (Hj : RejectsLater <> Throws) by discriminate.
  destruct (disconnect_releases Returns RejectsLater Returns
              (run lengthDecoder [MicGranted; Open; SessionFulfilled] mounted0)
              Hr Hj Hr)
    as ((st' & Hrun & Hcalls & _) & _).
  exists st'. split; [ exact Hrun | ]. rewrite Hcalls. reflexivity.
Defined.

(** C4 (as stated) fails: when [session.close()] throws, [disconnect]
    throws, and neither audio context has been closed. *)
Lemma disconnect_short_circuits :
  let st := run lengthDecoder [MicGranted; Open; SessionFulfilled] mounted0 in
  exists st',
    disconnect Throws Returns Returns st = Thrown st' /\
    calls (host st') = [CloseSession] /\
    is_Some (inputAudioContextRef (refs st')) /\
    is_Some (outputAudioContextRef (refs st')).
Proof.
  cbv zeta. eexists. split; [ vm_compute; reflexivity | ].
  repeat split; eexists; reflexivity.
Qed.

Lemma no_frame_before_open_witness :
  let evs := [MicGranted; AudioProcess [1 # 2]%Q; SessionFulfilled;
              ToggleMute; AudioProcess [1 # 2]%Q] in
  Forall (fun ev => ev <> Open) evs /\
  sent (host (run lengthDecoder evs mounted0)) = [] /\
  queued (run lengthDecoder evs mounted0) = [].
Proof.
  cbv zeta.
  assert (Hall : Forall (fun ev => ev <> Open)
                   [MicGranted; AudioProcess [1 # 2]%Q; SessionFulfilled;
                    ToggleMute; AudioProcess [1 # 2]%Q])
    by (repeat constructor; discriminate).
  destruct (no_frame_before_open lengthDecoder _ Hall) as (Hs & Hq & _).
  split; [ exact Hall | split; [ exact Hs | exact Hq ] ].
Defined.

(** C7 (as stated) fails: a payload that decodes to a buffer without
    frames is scheduled all the same: a source node is created and
    started, it joins the active set and the cursor moves from 0 to the
    clock reading 1. *)
Lemma zero_duration_is_scheduled :
  let st := run emptyDecoder [MicGranted; Open] mounted0 in
  let st' := step emptyDecoder st (Message 1 (audioMessage "AAAA" None)) in
  (duration (mkAudioBuffer 0 24000) == 0)%Q /\
  active st = ∅ /\ cursor st = 0%Q /\
  active st' = {[ 0%nat ]} /\
  cursor st' = (1 + (0 # 24000))%Q /\
  nodes (host st') !! 0%nat
  = Some (mkSourceNode (Some (mkAudioBuffer 0 24000)) (Some 1%Q) false).
Proof. cbv zeta. vm_compute. repeat split; reflexivity. Qed.

Lemma interrupted_message_flushes_witness :
  let st := run lengthDecoder
              [MicGranted; Open; Message 1 (audioMessage "AAAA" None)]
              mounted0 in
  mounted (clo st) = true /\
  size (active st) = 1%nat /\
  exists h st1,
    scheduleForPlayback lengthDecoder 1 "AAAAAAAA" st = Done h st1 /\
    onmessage lengthDecoder 1 (audioMessage "AAAAAAAA" (Some true)) st
    = Done tt (interrupt st1) /\
    active (interrupt st1) = ∅ /\
    isStopped (interrupt st1) h = true.
Proof.
  cbv zeta.
  destruct (interrupted_message_flushes lengthDecoder 1
              (audioMessage "AAAAAAAA" (Some true))
              (run lengthDecoder
                 [MicGranted; Open; Message 1 (audioMessage "AAAA" None)]
                 mounted0)
              eq_refl eq_refl)
    as (Hdone & Haudio & _).
  destruct (Haudio "AAAAAAAA"%string 24000 _ eq_refl eq_refl eq_refl eq_refl)
    as (h & st1 & Hrun & Hon & _ & _ & Hstop).
  split; [ reflexivity | ].
  split; [ vm_compute; reflexivity | ].
  exists h, st1. split; [ exact Hrun | ]. split; [ exact Hon | ].
  split; [ exact (proj1 (Hdone _ Hon)) | exact Hstop ].
Defined.

(** C10 (as stated) fails: after the component unmounted, a message with
    the interrupted flag is dropped by the [mounted] guard; the handler
    returns with the active set still holding a handle and the cursor
    where it was. *)
Lemma interrupted_message_after_unmount :
  let st := run lengthDecoder
              [MicGranted; Open; Message 1 (audioMessage "AAAA" None);
               Unmount Returns Returns Returns] mounted0 in
  let message := audioMessage "AAAA" (Some true) in
  interruptedOf message = true /\
  onmessage lengthDecoder 2 message st = Done tt st /\
  active st = {[ 0%nat ]} /\
  ~ (cursor st == 0)%Q.
Proof.
  cbv zeta. split; [ reflexivity | ].
  split; [ vm_compute; reflexivity | ].
  split; [ vm_compute; reflexivity | ].
  vm_compute. discriminate.
Qed.

(** * More about the live session *)

Lemma gapless_view a b : playbackView a = playbackView b -> gapless a -> gapless b.
Proof.
  unfold playbackView. intros Hv. inversion Hv as [[Hc Ha Hn]].
  unfold gapless. rewrite Hc, Ha, Hn. tauto.
Qed.

Lemma disconnect_playbackView rs ri ro st :
  playbackView (final (disconnect rs ri ro st)) = playbackView st.
Proof.
  apply (keeps_disconnect (fun a b => playbackView b = playbackView a));
    try reflexivity.
  intros a b c Hab Hbc. congruence.
Qed.

Lemma cleanup_playbackView rs ri ro st :
  playbackView (final (cleanup rs ri ro st)) = playbackView st.
Proof.
  unfold cleanup, bind, modify.
  apply (disconnect_playbackView rs ri ro (on_clo (set_mounted false) st)).
Qed.

(** Only messages and ['ended'] reach the playback state. *)
Lemma step_playbackView decodeAudio st ev :
  match ev with Message _ _ | Ended _ => False | _ => True end ->
  playbackView (step decodeAudio st ev) = playbackView st.
Proof.
  destruct ev as [ | | | | inputData | now message | source | | | | rs ri ro | rs ri ro ];
    cbn [step]; intros Hev; try contradiction.
  9: { apply disconnect_playbackView. }
  9: { apply cleanup_playbackView. }
  all: unfold micGranted, micDenied, onopen, sessionFulfilled, audioprocess,
         thenSend, onclose, onerror, toggleMute;
    repeat match goal with
           | |- context [if ?b then _ else _] => destruct b eqn:?
           | |- context [match sessionPromise ?c with _ => _ end] =>
               destruct (sessionPromise c)
           end;
    reflexivity.
Qed.

Lemma gapless_interrupt st : gapless (interrupt st).
Proof.
  split.
  - intros h Hh. exfalso. revert Hh. apply not_elem_of_empty.
  - intros h1 h2 b1 t1 b2 t2 Hh. exfalso. revert Hh. apply not_elem_of_empty.
Qed.

Lemma gapless_ended h st : gapless st -> gapless (ended h st).
Proof.
  intros [Ha Hb]. split.
  - intros h' Hh'. apply Ha.
    unfold active, ended in Hh'. cbn in Hh'.
    now apply elem_of_difference in Hh' as [Hin _].
  - intros h1 h2 b1 t1 b2 t2 H1 H2. apply Hb.
    + unfold active, ended in H1. cbn in H1.
      now apply elem_of_difference in H1 as [Hin _].
    + unfold active, ended in H2. cbn in H2.
      now apply elem_of_difference in H2 as [Hin _].
Qed.

Lemma gapless_raise now st :
  gapless st ->
  gapless (on_refs (set_nextStartTime (Qmax (cursor st) now)) st).
Proof.
  intros [Ha Hb]. split.
  - intros h Hh. destruct (Ha h Hh) as (b & t & Hn & Hle).
    exists b, t. split; [ exact Hn | ].
    change (cursor (on_refs (set_nextStartTime (Qmax (cursor st) now)) st))
      with (Qmax (cursor st) now).
    pose proof (Qmax_ge_l (cursor st) now). lra.
  - exact Hb.
Qed.

Lemma gapless_scheduleDecoded buf st :
  gapless st -> gapless (snd (scheduleDecoded buf st)).
Proof.
  intros [Ha Hb].
  set (h := fresh (dom (nodes (host st)))).
  assert (Hfresh : nodes (host st) !! h = None) by apply fresh_node_unused.
  assert (Hnot : h ∉ active st).
  { intros Hin. destruct (Ha h Hin) as (b & t & Hn & _). congruence. }
  assert (Hnodes : nodes (host (snd (scheduleDecoded buf st)))
                   = <[h := mkSourceNode (Some buf) (Some (cursor st)) false]>
                       (nodes (host st))) by reflexivity.
  assert (Hact : active (snd (scheduleDecoded buf st)) = {[h]} ∪ active st)
    by reflexivity.
  assert (Hcur : cursor (snd (scheduleDecoded buf st))
                 = (cursor st + duration buf)%Q) by reflexivity.
  pose proof (duration_nonneg buf) as Hd.
  assert (Hold : forall h', h' ∈ active st ->
            nodes (host (snd (scheduleDecoded buf st))) !! h'
            = nodes (host st) !! h').
  { intros h' Hin. rewrite Hnodes. apply lookup_insert_ne. congruence. }
  split.
  - intros h' Hh'. rewrite Hact in Hh'. rewrite Hcur.
    apply elem_of_union in Hh' as [Hnew | Hin].
    + apply elem_of_singleton in Hnew. subst h'.
      exists buf, (cursor st). split; [ | lra ].
      rewrite Hnodes. apply lookup_insert_eq.
    + destruct (Ha h' Hin) as (b & t & Hn & Hle).
      exists b, t. split; [ now rewrite (Hold h' Hin) | lra ].
  - intros h1 h2 b1 t1 b2 t2 H1 H2 Hne Hn1 Hn2.
    rewrite Hact in H1, H2.
    apply elem_of_union in H1 as [H1 | H1];
      apply elem_of_union in H2 as [H2 | H2].
    + apply elem_of_singleton in H1, H2. congruence.
    + apply elem_of_singleton in H1. subst h1.
      rewrite Hnodes, lookup_insert_eq in Hn1. inversion Hn1; subst.
      rewrite (Hold h2 H2) in Hn2.
      destruct (Ha h2 H2) as (b & t & Hn & Hle).
      rewrite Hn in Hn2. inversion Hn2; subst. now right.
    + apply elem_of_singleton in H2. subst h2.
      rewrite Hnodes, lookup_insert_eq in Hn2. inversion Hn2; subst.
      rewrite (Hold h1 H1) in Hn1.
      destruct (Ha h1 H1) as (b & t & Hn & Hle).
      rewrite Hn in Hn1. inversion Hn1; subst. now left.
    + rewrite (Hold h1 H1) in Hn1. rewrite (Hold h2 H2) in Hn2.
      exact (Hb h1 h2 b1 t1 b2 t2 H1 H2 Hne Hn1 Hn2).
Qed.

Lemma gapless_scheduleForPlayback decodeAudio now s st :
  gapless st -> gapless (final (scheduleForPlayback decodeAudio now s st)).
Proof.
  intros Hg. destruct (decodeAudio s) as [buf |] eqn:Hd.
  - rewrite (scheduleForPlayback_decoded _ _ _ _ _ Hd). cbn [final].
    apply gapless_scheduleDecoded. now apply gapless_raise.
  - rewrite (scheduleForPlayback_failed _ _ _ _ Hd). cbn [final].
    now apply gapless_raise.
Qed.

Lemma gapless_onmessage decodeAudio now m st :
  gapless st -> gapless (final (onmessage decodeAudio now m st)).
Proof.
  intros Hg. destruct (mounted (clo st)) eqn:Hm.
  - rewrite (onmessage_mounted _ _ _ _ Hm). cbv zeta.
    assert (Hafter : forall st1, gapless st1 ->
              gapless (if interruptedOf m then interrupt st1 else st1)).
    { intros st1 H1. destruct (interruptedOf m);
        [ apply gapless_interrupt | exact H1 ]. }
    destruct (base64AudioOf m) as [s |]; [ | now apply Hafter ].
    destruct (outputAudioContextRef (refs st)); [ | now apply Hafter ].
    destruct (truthy s); [ | now apply Hafter ].
    pose proof (gapless_scheduleForPlayback decodeAudio now s st Hg) as Hs.
    destruct (scheduleForPlayback decodeAudio now s st); cbn [final] in *.
    + now apply Hafter.
    + exact Hs.
  - now rewrite (onmessage_unmounted _ _ _ _ Hm).
Qed.

Lemma step_gapless decodeAudio st ev :
  gapless st -> gapless (step decodeAudio st ev).
Proof.
  intros Hg.
  destruct ev as [ | | | | inputData | now message | source | | | | rs ri ro | rs ri ro ].
  6: { cbn [step]. destruct (connectCalled st); [ | exact Hg ].
       now apply gapless_onmessage. }
  6: { cbn [step]. destruct (bool_decide _); [ | exact Hg ].
       now apply gapless_ended. }
  all: (eapply gapless_view; [ | exact Hg ]);
    symmetry; apply step_playbackView; exact I.
Qed.

Lemma run_gapless decodeAudio evs st :
  gapless st -> gapless (run decodeAudio evs st).
Proof.
  revert st. induction evs as [| ev evs IH]; intros st Hg; [ exact Hg | ].
  cbn [run fold_left]. apply IH. now apply step_gapless.
Qed.

Lemma gapless_mounted0 : gapless mounted0.
Proof.
  split.
  - intros h Hh. exfalso. revert Hh. apply not_elem_of_empty.
  - intros h1 h2 b1 t1 b2 t2 Hh. exfalso. revert Hh. apply not_elem_of_empty.
Qed.

(** X1. In every state the mounted component can reach, each handle of
    the active set is a source node that holds its buffer, has been
    started and has not been stopped, and its interval ends at or before
    the cursor. *)
Theorem active_handles_are_playing decodeAudio evs h :
  let st := run decodeAudio evs mounted0 in
  h ∈ active st ->
  exists b t,
    nodes (host st) !! h = Some (mkSourceNode (Some b) (Some t) false) /\
    (t + duration b <= cursor st)%Q.
Proof.
  intros st Hh.
  destruct (run_gapless decodeAudio evs mounted0 gapless_mounted0) as [Ha _].
  exact (Ha h Hh).
Qed.

Lemma active_handles_are_playing_witness :
  let st := run lengthDecoder
              [MicGranted; Open; Message 1 (audioMessage "AAAA" None)]
              mounted0 in
  0%nat ∈ active st /\
  exists b t,
    nodes (host st) !! 0%nat = Some (mkSourceNode (Some b) (Some t) false) /\
    (t + duration b <= cursor st)%Q.
Proof.
  cbv zeta.
  assert (Hin : 0%nat ∈ active (run lengthDecoder
              [MicGranted; Open; Message 1 (audioMessage "AAAA" None)]
              mounted0)).
  { apply (bool_decide_unpack _). vm_compute. exact I. }
  split; [ exact Hin | ].
  exact (active_handles_are_playing lengthDecoder _ 0%nat Hin).
Defined.

Lemma intervalOf_Some st h t e :
  intervalOf st h = Some (t, e) ->
  exists b stopped,
    nodes (host st) !! h = Some (mkSourceNode (Some b) (Some t) stopped) /\
    e = (t + duration b)%Q.
Proof.
  unfold intervalOf. intros Hi.
  destruct (nodes (host st) !! h) as [[[b |] [t' |] stopped] |];
    cbn in Hi; try discriminate.
  inversion Hi; subst. now exists b, stopped.
Qed.

(** X2. In every state the mounted component can reach, the intervals of
    two distinct handles of the active set do not overlap: one of them
    ends at or before the start of the other. *)
Theorem active_handles_never_overlap decodeAudio evs h1 h2 t1 e1 t2 e2 :
  let st := run decodeAudio evs mounted0 in
  h1 ∈ active st -> h2 ∈ active st -> h1 <> h2 ->
  intervalOf st h1 = Some (t1, e1) ->
  intervalOf st h2 = Some (t2, e2) ->
  (e1 <= t2)%Q \/ (e2 <= t1)%Q.
Proof.
  intros st H1 H2 Hne Hi1 Hi2.
  destruct (run_gapless decodeAudio evs mounted0 gapless_mounted0) as [Ha Hb].
  fold st in Ha, Hb.
  destruct (intervalOf_Some _ _ _ _ Hi1) as (b1 & s1 & Hn1 & ->).
  destruct (intervalOf_Some _ _ _ _ Hi2) as (b2 & s2 & Hn2 & ->).
  destruct (Ha h1 H1) as (b1' & t1' & Hn1' & _).
  destruct (Ha h2 H2) as (b2' & t2' & Hn2' & _).
  rewrite Hn1 in Hn1'. inversion Hn1'; subst.
  rewrite Hn2 in Hn2'. inversion Hn2'; subst.
  exact (Hb h1 h2 _ _ _ _ H1 H2 Hne Hn1 Hn2).
Qed.

Lemma active_handles_never_overlap_witness :
  let st := run lengthDecoder
              [MicGranted; Open; Message 1 (audioMessage "AAAA" None);
               Message 5 (audioMessage "AAAAAAAA" None)] mounted0 in
  intervalOf st 0%nat = Some (1, 1 + (4 # 24000))%Q /\
  intervalOf st 1%nat = Some (5, 5 + (8 # 24000))%Q /\
  ((1 + (4 # 24000) <= 5)%Q \/ (5 + (8 # 24000) <= 1)%Q).
Proof.
  cbv zeta.
  assert (Hi1 : intervalOf (run lengthDecoder
              [MicGranted; Open; Message 1 (audioMessage "AAAA" None);
               Message 5 (audioMessage "AAAAAAAA" None)] mounted0) 0%nat
            = Some (1, 1 + (4 # 24000))%Q) by (vm_compute; reflexivity).
  assert (Hi2 : intervalOf (run lengthDecoder
              [MicGranted; Open; Message 1 (audioMessage "AAAA" None);
               Message 5 (audioMessage "AAAAAAAA" None)] mounted0) 1%nat
            = Some (5, 5 + (8 # 24000))%Q) by (vm_compute; reflexivity).
  split; [ exact Hi1 | split; [ exact Hi2 | ] ].
  refine (active_handles_never_overlap lengthDecoder _ 0%nat 1%nat _ _ _ _
            _ _ _ Hi1 Hi2).
  - apply (bool_decide_unpack _). vm_compute. exact I.
  - apply (bool_decide_unpack _). vm_compute. exact I.
  - discriminate.
Defined.

Lemma onmessage_besidePlayback decodeAudio now m st :
  besidePlayback (final (onmessage decodeAudio now m st)) = besidePlayback st.
Proof.
  destruct (mounted (clo st)) eqn:Hm.
  - rewrite (onmessage_mounted _ _ _ _ Hm). cbv zeta.
    destruct (base64AudioOf m) as [s |];
      [ destruct (outputAudioContextRef (refs st)) eqn:Ho; [ destruct (truthy s) | ] | ];
      try (destruct (interruptedOf m); unfold besidePlayback; cbn; now rewrite ?Ho).
    unfold scheduleForPlayback, bind, modify.
    destruct (decodeAudio s); [ | unfold besidePlayback; cbn; now rewrite ?Ho ].
    destruct (interruptedOf m); unfold besidePlayback; cbn; now rewrite ?Ho.
  - now rewrite (onmessage_unmounted _ _ _ _ Hm).
Qed.

(** [disconnect] when nothing throws. *)
Lemma disconnect_returns rs ri ro st :
  rs <> Throws -> ri <> Throws -> ro <> Throws ->
  exists st',
    disconnect rs ri ro st = Done tt st' /\
    calls (host st') = calls (host st) ++ releaseCalls st /\
    refs st' = refs st /\ clo st' = clo st /\
    isConnected (ui st') = false.
Proof.
  intros Hrs Hri Hro. unfold releaseCalls.
  destruct st as [u [ic oc t srcs sess af] c h].
  unfold disconnect, bind, get, when, call, modify; cbn.
  destruct sess, ic as [ic |], oc as [oc |], af as [[| n] |],
    rs, ri, ro; try contradiction; cbn;
    (eexists; split; [ reflexivity | ]);
    cbn; rewrite <- ?app_assoc; repeat split; reflexivity.
Qed.

(** [disconnect] in general: the calls it adds, and the session is closed
    only if one is stored. *)
Lemma disconnect_calls rs ri ro st :
  exists l,
    calls (host (final (disconnect rs ri ro st))) = calls (host st) ++ l /\
    (CloseSession ∈ l -> sessionRef (refs st) = true).
Proof.
  destruct st as [u [ic oc t srcs sess af] c h].
  unfold disconnect, bind, get, when, call, modify; cbn.
  destruct sess; [ | ].
  - destruct ic as [ic |], oc as [oc |], af as [[| n] |], rs, ri, ro; cbn;
      (eexists; split; [ rewrite <- ?app_assoc; reflexivity | reflexivity ]).
  - destruct ic as [ic |], oc as [oc |], af as [[| n] |], rs, ri, ro; cbn;
      (eexists; split; [ rewrite <- ?app_assoc; reflexivity | ]);
      intros Hin;
      repeat (apply elem_of_cons in Hin as [Hin | Hin]; [ discriminate Hin | ]);
      now apply elem_of_nil in Hin.
Qed.

Lemma sessionless_view a b :
  sessionRef (refs a) = sessionRef (refs b) ->
  calls (host a) = calls (host b) ->
  sessionless a -> sessionless b.
Proof. unfold sessionless. intros -> ->. tauto. Qed.

Lemma besidePlayback_session a b :
  besidePlayback a = besidePlayback b ->
  sessionRef (refs a) = sessionRef (refs b) /\ calls (host a) = calls (host b).
Proof. unfold besidePlayback. intros H. inversion H. split; congruence. Qed.

Lemma step_sessionless decodeAudio st ev :
  ev <> SessionFulfilled -> sessionless st ->
  sessionless (step decodeAudio st ev).
Proof.
  intros Hev Hs.
  destruct ev as [ | | | | inputData | now message | source | | | | rs ri ro | rs ri ro ];
    cbn [step]; try contradiction.
  5: { destruct (connectCalled st); [ | exact Hs ].
       destruct (besidePlayback_session _ _
                   (onmessage_besidePlayback decodeAudio now message st))
         as [H1 H2].
       eapply sessionless_view; [ symmetry; exact H1 | symmetry; exact H2 | exact Hs ]. }
  9: { destruct Hs as [Hr Hc].
       destruct (disconnect_calls rs ri ro st) as (l & Hl & Hclose).
       split; [ now rewrite disconnect_refs | ].
       rewrite Hl. intros Hin. apply elem_of_app in Hin as [Hin | Hin].
       - now apply Hc.
       - rewrite (Hclose Hin) in Hr. discriminate Hr. }
  9: { destruct Hs as [Hr Hc]. unfold cleanup, bind, modify.
       destruct (disconnect_calls rs ri ro (on_clo (set_mounted false) st))
         as (l & Hl & Hclose).
       split; [ now rewrite disconnect_refs | ].
       rewrite Hl. intros Hin. apply elem_of_app in Hin as [Hin | Hin].
       - now apply Hc.
       - cbn in Hclose. rewrite (Hclose Hin) in Hr. discriminate Hr. }
  all: unfold micGranted, micDenied, onopen, audioprocess,
         thenSend, onclose, onerror, toggleMute, ended;
    repeat match goal with
           | |- context [if ?b then _ else _] => destruct b eqn:?
           | |- context [match sessionPromise ?c with _ => _ end] =>
               destruct (sessionPromise c)
           end;
    exact Hs.
Qed.

(** X3. As long as the session promise has not fulfilled, no session is
    stored in [sessionRef]; a teardown in that time closes the audio
    contexts but never calls [session.close()]. *)
Theorem teardown_before_session_leaks decodeAudio evs :
  Forall (fun ev => ev <> SessionFulfilled) evs ->
  let st := run decodeAudio evs mounted0 in
  sessionRef (refs st) = false /\ CloseSession ∉ calls (host st).
Proof.
  intros Hall. cbv zeta.
  assert (Hgen : forall st, sessionless st -> sessionless (run decodeAudio evs st)).
  { induction Hall as [| ev evs Hev _ IH]; intros st Hs; [ exact Hs | ].
    cbn [run fold_left]. apply IH. now apply step_sessionless. }
  apply Hgen. split; [ reflexivity | ].
  cbn. apply not_elem_of_nil.
Qed.

Lemma teardown_before_session_leaks_witness :
  let evs := [MicGranted; Open; AudioProcess [1 # 2]%Q;
              Disconnect Returns Returns Returns;
              Unmount Returns RejectsLater RejectsLater] in
  Forall (fun ev => ev <> SessionFulfilled) evs /\
  calls (host (run lengthDecoder evs mounted0))
  = [CloseInputContext; CloseOutputContext; OnClose;
     CloseInputContext; CloseOutputContext; OnClose] /\
  CloseSession ∉ calls (host (run lengthDecoder evs mounted0)).
Proof.
  cbv zeta.
  assert (Hall : Forall (fun ev => ev <> SessionFulfilled)
                   [MicGranted; Open; AudioProcess [1 # 2]%Q;
                    Disconnect Returns Returns Returns;
                    Unmount Returns RejectsLater RejectsLater])
    by (repeat constructor; discriminate).
  split; [ exact Hall | ].
  split; [ vm_compute; reflexivity | ].
  exact (proj2 (teardown_before_session_leaks lengthDecoder _ Hall)).
Defined.

(** X4. [disconnect] clears none of the refs. The hang-up button followed
    by the cleanup of the mount effect (the parent unmounts the component
    from [onClose]) therefore makes every release call, and [onClose],
    twice, when none of the calls throws. *)
Theorem hang_up_releases_twice decodeAudio rs ri ro rs' ri' ro' st :
  rs <> Throws -> ri <> Throws -> ro <> Throws ->
  rs' <> Throws -> ri' <> Throws -> ro' <> Throws ->
  let st' := run decodeAudio [Disconnect rs ri ro; Unmount rs' ri' ro'] st in
  calls (host st') = calls (host st) ++ releaseCalls st ++ releaseCalls st /\
  refs st' = refs st /\
  mounted (clo st') = false.
Proof.
  intros Hrs Hri Hro Hrs' Hri' Hro'. cbv zeta. cbn [run fold_left step].
  destruct (disconnect_returns rs ri ro st Hrs Hri Hro)
    as (st1 & Hrun1 & Hcalls1 & Hrefs1 & Hclo1 & _).
  rewrite Hrun1. cbn [final].
  change (cleanup rs' ri' ro' st1)
    with (disconnect rs' ri' ro' (on_clo (set_mounted false) st1)).
  destruct (disconnect_returns rs' ri' ro' (on_clo (set_mounted false) st1)
              Hrs' Hri' Hro')
    as (st2 & Hrun2 & Hcalls2 & Hrefs2 & Hclo2 & _).
  rewrite Hrun2. cbn [final].
  assert (Hrel1 : releaseCalls (on_clo (set_mounted false) st1) = releaseCalls st)
    by (unfold releaseCalls; cbn; now rewrite Hrefs1).
  split; [ | split ].
  - rewrite Hcalls2, Hrel1. cbn. rewrite Hcalls1. now rewrite <- app_assoc.
  - rewrite Hrefs2. exact Hrefs1.
  - rewrite Hclo2. reflexivity.
Qed.

Lemma hang_up_releases_twice_witness :
  let st := run lengthDecoder [MicGranted; Open; SessionFulfilled] mounted0 in
  calls (host (run lengthDecoder
                 [Disconnect Returns Returns Returns;
                  Unmount Returns RejectsLater RejectsLater] st))
  = [CloseSession; CloseInputContext; CloseOutputContext; OnClose;
     CloseSession; CloseInputContext; CloseOutputContext; OnClose].
Proof.
  cbv zeta.
  assert (Hr : Returns <> Throws) by discriminate.
  assert (Hj : RejectsLater <> Throws) by discriminate.
  destruct (hang_up_releases_twice lengthDecoder
              Returns Returns Returns Returns RejectsLater RejectsLater
              (run lengthDecoder [MicGranted; Open; SessionFulfilled] mounted0)
              Hr Hr Hr Hr Hj Hj) as (Hcalls & _).
  rewrite Hcalls. reflexivity.
Defined.








Lemma captureView_forwarded a b :
  captureView a = captureView b ->
  forwarded a = forwarded b /\ published (host a) = published (host b).
Proof.
  unfold captureView, forwarded, queued. intros H. inversion H.
  split; congruence.
Qed.

Lemma step_capture decodeAudio st ev :
  isMuted_bound (clo st) = false -> armed st ->
  forwarded (step decodeAudio st ev)
  = forwarded st ++ map createPcmBlob (framesOf st ev) /\
  published (host (step decodeAudio st ev))
  = published (host st) ++ map loudnessOf (framesOf st ev) /\
  (onaudioprocess (clo st) = true ->
   onaudioprocess (clo (step decodeAudio st ev)) = true).
Proof.
  intros Hb Ha.
  destruct ev as [ | | | | inputData | now message | source | | | | rs ri ro | rs ri ro ];
    cbn [step framesOf map]; rewrite ?app_nil_r.
  5: { destruct (onaudioprocess (clo st)) eqn:Hon;
         [ | cbn [map]; rewrite ?app_nil_r; repeat split; congruence ].
       destruct (audioprocess_unmuted inputData st Hb (Ha Hon))
         as (Hpub & _ & Hfwd & _).
       cbn [map]. repeat split; try assumption.
       unfold audioprocess. rewrite Hb. unfold thenSend. cbn.
       intros _. destruct (sessionPromise (clo st)); exact Hon. }
  5: { destruct (connectCalled st); [ | repeat split; auto ].
       pose proof (onmessage_captureView decodeAudio now message st) as Hv.
       destruct (captureView_forwarded _ _ Hv) as [Hf Hp].
       rewrite Hf, Hp, (captureView_processor _ _ Hv). repeat split; auto. }
  9: { pose proof (disconnect_captureView rs ri ro st) as Hv.
       destruct (captureView_forwarded _ _ Hv) as [Hf Hp].
       rewrite Hf, Hp, (captureView_processor _ _ Hv). repeat split; auto. }
  9: { pose proof (cleanup_captureView rs ri ro st) as Hv.
       destruct (captureView_forwarded _ _ Hv) as [Hf Hp].
       rewrite Hf, Hp, (captureView_processor _ _ Hv). repeat split; auto. }
  all: unfold micGranted, micDenied, onopen, sessionFulfilled,
         onclose, onerror, toggleMute, ended, connectCalled,
         forwarded, queued;
    destruct (sessionPromise (clo st)) as [| thens |] eqn:Hp;
    cbn; rewrite ?Hp;
    repeat match goal with
           | |- context [if ?b then _ else _] => destruct b eqn:?
           end;
    cbn; rewrite ?Hp; rewrite ?app_nil_r;
    repeat split; auto; try discriminate.
Qed.

Lemma run_capture decodeAudio evs st :
  isMuted_bound (clo st) = false -> armed st ->
  exists frames,
    frames `suffix_of` ticks evs /\
    (onaudioprocess (clo st) = true -> frames = ticks evs) /\
    forwarded (run decodeAudio evs st)
    = forwarded st ++ map createPcmBlob frames /\
    published (host (run decodeAudio evs st))
    = published (host st) ++ map loudnessOf frames.
Proof.
  revert st. induction evs as [| ev evs IH]; intros st Hb Ha.
  - exists []. cbn. rewrite !app_nil_r. repeat split; auto.
  - cbn [run fold_left].
    destruct (step_capture decodeAudio st ev Hb Ha) as (Hf & Hp & Hon).
    assert (Hb' : isMuted_bound (clo (step decodeAudio st ev)) = false)
      by now rewrite step_isMuted_bound.
    pose proof (step_armed decodeAudio st ev Ha) as Ha'.
    destruct (IH _ Hb' Ha') as (frames & Hsuf & Hall & Hf' & Hp').
    fold (run decodeAudio evs (step decodeAudio st ev)).
    exists (framesOf st ev ++ frames).
    assert (Htk : ticks (ev :: evs)
                  = match ev with AudioProcess d => [d] | _ => [] end ++ ticks evs)
      by reflexivity.
    repeat split.
    + rewrite Htk.
      destruct (onaudioprocess (clo st)) eqn:Hinst.
      * rewrite (Hall (Hon eq_refl)).
        destruct ev; cbn [framesOf]; rewrite ?Hinst; reflexivity.
      * assert (Hnil : framesOf st ev = [])
          by (destruct ev; cbn [framesOf]; rewrite ?Hinst; reflexivity).
        rewrite Hnil. cbn [app]. now apply suffix_app_r.
    + intros Hinst. rewrite Htk, (Hall (Hon Hinst)).
      destruct ev; cbn [framesOf]; rewrite ?Hinst; reflexivity.
    + rewrite Hf', Hf, map_app, app_assoc. reflexivity.
    + rewrite Hp', Hp, map_app, app_assoc. reflexivity.
Qed.

Lemma run_app decodeAudio evs1 evs2 st :
  run decodeAudio (evs1 ++ evs2) st
  = run decodeAudio evs2 (run decodeAudio evs1 st).
Proof. unfold run. apply fold_left_app. Qed.

Lemma run_processor_stays decodeAudio evs st :
  isMuted_bound (clo st) = false -> armed st ->
  onaudioprocess (clo st) = true ->
  onaudioprocess (clo (run decodeAudio evs st)) = true.
Proof.
  revert st. induction evs as [| ev evs IH]; intros st Hb Ha Hon;
    [ exact Hon | ].
  cbn [run fold_left]. apply IH.
  - now rewrite step_isMuted_bound.
  - now apply step_armed.
  - now apply (step_capture decodeAudio st ev Hb Ha).
Qed.

(** As long as the tick handler is not installed, nothing is forwarded
    and nothing is published. *)
Lemma run_capture_idle decodeAudio evs st :
  isMuted_bound (clo st) = false -> armed st ->
  onaudioprocess (clo (run decodeAudio evs st)) = false ->
  forwarded (run decodeAudio evs st) = forwarded st /\
  published (host (run decodeAudio evs st)) = published (host st).
Proof.
  revert st. induction evs as [| ev evs IH]; intros st Hb Ha Hoff;
    [ split; reflexivity | ].
  cbn [run fold_left] in *.
  fold (run decodeAudio evs (step decodeAudio st ev)) in *.
  assert (Hb' : isMuted_bound (clo (step decodeAudio st ev)) = false)
    by now rewrite step_isMuted_bound.
  pose proof (step_armed decodeAudio st ev Ha) as Ha'.
  destruct (step_capture decodeAudio st ev Hb Ha) as (Hf & Hp & Hon).
  destruct (onaudioprocess (clo st)) eqn:Hst.
  - rewrite (run_processor_stays decodeAudio evs _ Hb' Ha' (Hon eq_refl)) in Hoff.
    discriminate Hoff.
  - assert (Hnil : framesOf st ev = [])
      by (destruct ev; cbn [framesOf]; rewrite ?Hst; reflexivity).
    rewrite Hnil in Hf, Hp. cbn [map] in Hf, Hp. rewrite app_nil_r in Hf, Hp.
    destruct (IH _ Hb' Ha' Hoff) as [Hf' Hp']. split; congruence.
Qed.

(** X6. Until the tick handler is installed nothing is forwarded and no
    loudness is published. Once [onopen] reaches the mounted component
    after [ai.live.connect], the blobs handed to the transport (sent, or
    queued behind the session promise) are the encodings of the frames
    of all the ticks that follow, every one of them, in capture order,
    and the loudness values published are those of the same frames; what
    has been sent is an initial part of these blobs. *)
Theorem frames_forwarded_in_capture_order decodeAudio pre post :
  let st0 := run decodeAudio pre mounted0 in
  onaudioprocess (clo st0) = false ->
  connectCalled st0 = true ->
  mounted (clo st0) = true ->
  let st := run decodeAudio (pre ++ Open :: post) mounted0 in
  forwarded st0 = [] /\ published (host st0) = [] /\
  forwarded st = map createPcmBlob (ticks post) /\
  published (host st) = map loudnessOf (ticks post) /\
  exists n, sent (host st) = take n (map createPcmBlob (ticks post)).
Proof.
  intros st0 Hoff Hc Hm st.
  assert (Hb0 : isMuted_bound (clo st0) = false)
    by (unfold st0; now rewrite run_isMuted_bound).
  assert (Ha0 : armed st0).
  { apply run_armed. intros Hfalse. discriminate Hfalse. }
  destruct (run_capture_idle decodeAudio pre mounted0 eq_refl) as [Hf0 Hp0].
  { intros Hfalse. discriminate Hfalse. }
  { exact Hoff. }
  fold st0 in Hf0, Hp0. cbn in Hf0, Hp0.
  set (st1 := step decodeAudio st0 Open).
  assert (Hst : st = run decodeAudio post st1).
  { unfold st. rewrite run_app. reflexivity. }
  assert (Hon1 : onaudioprocess (clo st1) = true).
  { unfold st1. cbn [step]. rewrite Hc. unfold onopen. now rewrite Hm. }
  assert (Hb1 : isMuted_bound (clo st1) = false)
    by (unfold st1; now rewrite step_isMuted_bound).
  pose proof (step_armed decodeAudio st0 Open Ha0) as Ha1. fold st1 in Ha1.
  destruct (step_capture decodeAudio st0 Open Hb0 Ha0) as (Hf1 & Hp1 & _).
  fold st1 in Hf1, Hp1. cbn [framesOf map] in Hf1, Hp1.
  rewrite app_nil_r in Hf1, Hp1.
  destruct (run_capture decodeAudio post st1 Hb1 Ha1)
    as (frames & _ & Hall & Hf & Hp).
  rewrite (Hall Hon1) in Hf, Hp. rewrite <- Hst in Hf, Hp.
  rewrite Hf1, Hf0 in Hf. rewrite Hp1, Hp0 in Hp. cbn [app] in Hf, Hp.
  split; [ exact Hf0 | ]. split; [ exact Hp0 | ].
  split; [ exact Hf | ]. split; [ exact Hp | ].
  exists (length (sent (host st))).
  rewrite <- Hf. unfold forwarded. now rewrite take_app_length.
Qed.

Lemma frames_forwarded_in_capture_order_witness :
  let pre := [AudioProcess [1 # 2]%Q; MicGranted; ToggleMute] in
  let post := [AudioProcess [1 # 4]%Q; SessionFulfilled; ToggleMute;
               AudioProcess [1 # 2]%Q] in
  let st := run lengthDecoder (pre ++ Open :: post) mounted0 in
  onaudioprocess (clo (run lengthDecoder pre mounted0)) = false /\
  forwarded st = [createPcmBlob [1 # 4]%Q; createPcmBlob [1 # 2]%Q] /\
  published (host st) = [loudnessOf [1 # 4]%Q; loudnessOf [1 # 2]%Q].
Proof.
  cbv zeta.
  destruct (frames_forwarded_in_capture_order lengthDecoder
              [AudioProcess [1 # 2]%Q; MicGranted; ToggleMute]
              [AudioProcess [1 # 4]%Q; SessionFulfilled; ToggleMute;
               AudioProcess [1 # 2]%Q] eq_refl eq_refl eq_refl)
    as (_ & _ & Hf & Hp & _).
  split; [ reflexivity | ]. split; [ exact Hf | exact Hp ].
Defined.

Lemma square_in_unit_interval (x : Q) :
  (-1 <= x <= 1)%Q -> (0 <= x * x <= 1)%Q.
Proof.
  intros [Hlo Hhi]. split.
  - destruct (Qlt_le_dec x 0) as [Hneg | Hpos].
    + assert (Hsq : ((- x) * (- x) == x * x)%Q) by ring.
      rewrite <- Hsq. apply Qmult_le_0_compat; lra.
    + now apply Qmult_le_0_compat.
  - assert (Hprod : (0 <= (1 - x) * (1 + x))%Q)
      by (apply Qmult_le_0_compat; lra).
    assert (Hsq : ((1 - x) * (1 + x) == 1 - x * x)%Q) by ring.
    rewrite Hsq in Hprod. lra.
Qed.

Lemma sumSquares_acc (l : list Q) (acc : Q) :
  Forall (fun x => (-1 <= x <= 1)%Q) l ->
  (acc <= fold_left (fun sum x => (sum + x * x)%Q) l acc
       <= acc + inject_Z (Z.of_nat (length l)))%Q.
Proof.
  intros Hl. revert acc.
  induction Hl as [| x l [Hlo Hhi] _ IH]; intros acc.
  - cbn [fold_left length]. change (inject_Z (Z.of_nat 0)) with 0%Q.
    split; lra.
  - cbn [fold_left length]. rewrite Nat2Z.inj_succ. unfold Z.succ.
    rewrite inject_Z_plus. change (inject_Z 1) with 1%Q.
    destruct (IH (acc + x * x)%Q) as [H1 H2].
    pose proof (square_in_unit_interval x (conj Hlo Hhi)) as Hx.
    split; lra.
Qed.

(** X7. For a capture frame that is not empty and whose samples lie in
    [-1, 1], the mean square the loudness meter takes the square root of
    lies in [0, 1]. *)
Theorem meanSquare_in_unit_interval (inputData : list Q) :
  inputData <> [] ->
  Forall (fun x => (-1 <= x <= 1)%Q) inputData ->
  (0 <= meanSquare inputData <= 1)%Q.
Proof.
  intros Hne Hl. unfold meanSquare, sumSquares.
  destruct (sumSquares_acc inputData 0 Hl) as [Hlo Hhi].
  destruct inputData as [| x l]; [ contradiction | ].
  set (n := inject_Z (Z.of_nat (length (x :: l)))) in *.
  assert (Hn : (0 < n)%Q).
  { unfold n. rewrite <- (Zlt_Qlt 0). cbn [length]. lia. }
  split.
  - apply Qle_shift_div_l; [ exact Hn | lra ].
  - apply Qle_shift_div_r; [ exact Hn | lra ].
Qed.

Lemma meanSquare_in_unit_interval_witness :
  [1 # 2; - (1 # 2); 1]%Q <> [] /\
  Forall (fun x => (-1 <= x <= 1)%Q) [1 # 2; - (1 # 2); 1]%Q /\
  (0 <= meanSquare [1 # 2; - (1 # 2); 1]%Q <= 1)%Q /\
  (meanSquare [1 # 2; - (1 # 2); 1]%Q == 1 # 2)%Q.
Proof.
  assert (Hne : [1 # 2; - (1 # 2); 1]%Q <> []) by discriminate.
  assert (Hl : Forall (fun x => (-1 <= x <= 1)%Q) [1 # 2; - (1 # 2); 1]%Q).
  { repeat constructor; unfold Qle; simpl; lia. }
  split; [ exact Hne | ]. split; [ exact Hl | ].
  split; [ exact (meanSquare_in_unit_interval _ Hne Hl) | ].
  vm_compute. reflexivity.
Defined.

Lemma step_audio decodeAudio now s b st :
  live st -> truthy s = true -> decodeAudio s = Some b ->
  let st' := step decodeAudio st (Message now (audioMessage s None)) in
  live st' /\
  cursor st' = (Qmax (cursor st) now + duration b)%Q /\
  active st' = {[fresh (dom (nodes (host st)))]} ∪ active st /\
  st' = snd (scheduleDecoded b
               (on_refs (set_nextStartTime (Qmax (cursor st) now)) st)).
Proof.
  intros (Hm & Hc & [c Hctx]) Ht Hd. cbv zeta. cbn [step]. rewrite Hc.
  rewrite (onmessage_mounted _ _ _ _ Hm). cbv zeta.
  rewrite base64AudioOf_audioMessage, Hctx, Ht.
  rewrite (scheduleForPlayback_decoded _ _ _ _ _ Hd). cbn [final interruptedOf].
  change (interruptedOf (audioMessage s None)) with false. cbn [final].
  repeat split; try assumption.
  unfold live in *. cbn. rewrite Hctx. now exists c.
Qed.

Lemma totalDuration_nonneg bufs : (0 <= totalDuration bufs)%Q.
Proof.
  induction bufs as [| b bufs IH]; cbn [totalDuration fold_right];
    [ apply Qle_refl | ].
  fold (totalDuration bufs). pose proof (duration_nonneg b). lra.
Qed.

Lemma run_audioBurst decodeAudio now ss bs st :
  live st -> gapless st -> (now <= cursor st)%Q ->
  Forall2 (fun s b => truthy s = true /\ decodeAudio s = Some b) ss bs ->
  let st' := run decodeAudio (audioBurst now ss) st in
  live st' /\ gapless st' /\
  (cursor st' == cursor st + totalDuration bs)%Q /\
  size (active st') = (size (active st) + length ss)%nat.
Proof.
  intros Hl Hg Hnow Hall. revert st Hl Hg Hnow.
  induction Hall as [| s b ss bs [Ht Hd] _ IH]; intros st Hl Hg Hnow; cbv zeta.
  - cbn [audioBurst map run fold_left totalDuration fold_right length].
    split; [ exact Hl | split; [ exact Hg | split; [ ring | lia ] ] ].
  - cbn [audioBurst map run fold_left].
    destruct (step_audio decodeAudio now s b st Hl Ht Hd)
      as (Hl1 & Hc1 & Ha1 & _).
    pose proof (step_gapless decodeAudio st
                  (Message now (audioMessage s None)) Hg) as Hg1.
    set (st1 := step decodeAudio st (Message now (audioMessage s None))) in *.
    pose proof (duration_nonneg b) as Hdb.
    pose proof (Qmax_ge_r (cursor st) now) as Hge.
    assert (Hnow1 : (now <= cursor st1)%Q) by (rewrite Hc1; lra).
    destruct (IH st1 Hl1 Hg1 Hnow1) as (Hl' & Hg' & Hc' & Hs').
    fold (audioBurst now ss). fold (run decodeAudio (audioBurst now ss) st1).
    split; [ exact Hl' | split; [ exact Hg' | split ] ].
    + rewrite Hc', Hc1. cbn [totalDuration fold_right].
      fold (totalDuration bs). rewrite (Qmax_l _ _ Hnow). ring.
    + rewrite Hs', Ha1.
      assert (Hnot : fresh (dom (nodes (host st))) ∉ active st).
      { intros Hin. destruct Hg as [Hact _].
        destruct (Hact _ Hin) as (b0 & t0 & Hn & _).
        rewrite fresh_node_unused in Hn. discriminate Hn. }
      rewrite size_union by (apply disjoint_singleton_l; exact Hnot).
      rewrite size_singleton. cbn [length]. lia.
Qed.

(** X8. A burst of one or more chunks that all decode, handled by a
    live component at one clock reading: the cursor ends at
    [max(cursor, now)] plus the sum of the durations, the active set has
    one more handle per chunk, and no two handles overlap. *)
Theorem burst_plays_back_to_back decodeAudio now s ss b bs st :
  live st -> gapless st ->
  Forall2 (fun s b => truthy s = true /\ decodeAudio s = Some b)
          (s :: ss) (b :: bs) ->
  let st' := run decodeAudio (audioBurst now (s :: ss)) st in
  (cursor st' == Qmax (cursor st) now + totalDuration (b :: bs))%Q /\
  size (active st') = (size (active st) + length (s :: ss))%nat /\
  gapless st'.
Proof.
  intros Hl Hg Hall. inversion Hall as [| ? ? ? ? [Ht Hd] Hrest]; subst.
  cbv zeta. cbn [audioBurst map run fold_left].
  destruct (step_audio decodeAudio now s b st Hl Ht Hd)
    as (Hl1 & Hc1 & Ha1 & _).
  pose proof (step_gapless decodeAudio st
                (Message now (audioMessage s None)) Hg) as Hg1.
  set (st1 := step decodeAudio st (Message now (audioMessage s None))) in *.
  pose proof (duration_nonneg b) as Hdb.
  pose proof (Qmax_ge_r (cursor st) now) as Hge.
  assert (Hnow1 : (now <= cursor st1)%Q) by (rewrite Hc1; lra).
  destruct (run_audioBurst decodeAudio now ss bs st1 Hl1 Hg1 Hnow1 Hrest)
    as (_ & Hg' & Hc' & Hs').
  fold (audioBurst now ss). fold (run decodeAudio (audioBurst now ss) st1).
  split; [ | split; [ | exact Hg' ] ].
  - rewrite Hc', Hc1. cbn [totalDuration fold_right].
    fold (totalDuration bs). ring.
  - rewrite Hs', Ha1.
    assert (Hnot : fresh (dom (nodes (host st))) ∉ active st).
    { intros Hin. destruct Hg as [Hact _].
      destruct (Hact _ Hin) as (b0 & t0 & Hn & _).
      rewrite fresh_node_unused in Hn. discriminate Hn. }
    rewrite size_union by (apply disjoint_singleton_l; exact Hnot).
    rewrite size_singleton. cbn [length]. lia.
Qed.

Lemma burst_plays_back_to_back_witness :
  let st := run lengthDecoder [MicGranted; Open] mounted0 in
  let st' := run lengthDecoder
               (audioBurst 2 ["AAAA"; "AAAAAAAA"; "AAAA"]%string) st in
  live st /\
  (cursor st' == 2 + (16 # 24000))%Q /\
  size (active st') = 3%nat.
Proof.
  cbv zeta.
  assert (Hl : live (run lengthDecoder [MicGranted; Open] mounted0)).
  { repeat split. now exists 24000. }
  assert (Hg : gapless (run lengthDecoder [MicGranted; Open] mounted0))
    by (apply run_gapless, gapless_mounted0).
  destruct (burst_plays_back_to_back lengthDecoder 2
              "AAAA" ["AAAAAAAA"; "AAAA"]%string
              (mkAudioBuffer 4 24000)
              [mkAudioBuffer 8 24000; mkAudioBuffer 4 24000] _ Hl Hg)
    as (Hc & Hs & _).
  { repeat constructor. }
  split; [ exact Hl | ]. split.
  - rewrite Hc. vm_compute. reflexivity.
  - rewrite Hs. reflexivity.
Defined.

(** X9. A chunk that fails to decode on a mounted component: the handler
    does not complete, no source node is created or stopped and the
    active set is unchanged, also when the message carries the
    interrupted flag; the cursor has already been raised to
    [max(cursor, now)]; nothing else changes. *)
Theorem failed_chunk_is_dropped decodeAudio now message s st :
  mounted (clo st) = true ->
  is_Some (outputAudioContextRef (refs st)) ->
  base64AudioOf message = Some s -> truthy s = true ->
  decodeAudio s = None ->
  let out := onmessage decodeAudio now message st in
  completes out = false /\
  nodes (host (final out)) = nodes (host st) /\
  active (final out) = active st /\
  cursor (final out) = Qmax (cursor st) now /\
  besidePlayback (final out) = besidePlayback st.
Proof.
  intros Hm [c Hctx] Hb Ht Hd. cbv zeta.
  rewrite (onmessage_mounted _ _ _ _ Hm). cbv zeta.
  rewrite Hb, Hctx, Ht, (scheduleForPlayback_failed _ _ _ _ Hd).
  cbn. unfold besidePlayback. cbn. repeat split.
Qed.

Lemma failed_chunk_is_dropped_witness :
  let dec := fun s : string =>
               if Nat.even (String.length s) then lengthDecoder s else None in
  let st := run dec [MicGranted; Open; Message 1 (audioMessage "AAAA" None)]
              mounted0 in
  let out := onmessage dec 3 (audioMessage "AAA" (Some true)) st in
  completes out = false /\
  size (active (final out)) = 1%nat /\
  isStopped (final out) 0 = false /\
  cursor (final out) = 3%Q.
Proof.
  cbv zeta.
  set (dec := fun s : string =>
               if Nat.even (String.length s) then lengthDecoder s else None).
  destruct (failed_chunk_is_dropped dec 3 (audioMessage "AAA" (Some true))
              "AAA"
              (run dec [MicGranted; Open; Message 1 (audioMessage "AAAA" None)]
                 mounted0)
              eq_refl (ex_intro _ 24000 eq_refl) eq_refl eq_refl eq_refl)
    as (Hc & Hn & Ha & Hcur & _).
  split; [ exact Hc | ].
  split; [ rewrite Ha; vm_compute; reflexivity | ].
  split; [ unfold isStopped; rewrite Hn; vm_compute; reflexivity | ].
  rewrite Hcur. vm_compute. reflexivity.
Defined.

Lemma besidePlayback_deviceView a b :
  besidePlayback a = besidePlayback b -> deviceView a = deviceView b.
Proof. unfold besidePlayback, deviceView. intros H. inversion H. congruence. Qed.

Lemma disconnect_deviceView rs ri ro st :
  deviceView (final (disconnect rs ri ro st)) = deviceView st.
Proof.
  apply (keeps_disconnect (fun a b => deviceView b = deviceView a));
    try reflexivity.
  intros a b c Hab Hbc. congruence.
Qed.

Lemma step_deviceView decodeAudio st ev :
  deviceView (step decodeAudio st ev) = deviceView st.
Proof.
  destruct ev as [ | | | | inputData | now message | source | | | | rs ri ro | rs ri ro ];
    cbn [step].
  6: { destruct (connectCalled st); [ | reflexivity ].
       apply besidePlayback_deviceView, onmessage_besidePlayback. }
  10: { apply disconnect_deviceView. }
  10: { change (cleanup rs ri ro st)
          with (disconnect rs ri ro (on_clo (set_mounted false) st)).
        apply (disconnect_deviceView rs ri ro (on_clo (set_mounted false) st)). }
  all: unfold micGranted, micDenied, onopen, sessionFulfilled, audioprocess,
         thenSend, onclose, onerror, toggleMute, ended;
    repeat match goal with
           | |- context [if ?b then _ else _] => destruct b eqn:?
           | |- context [match sessionPromise ?c with _ => _ end] =>
               destruct (sessionPromise c)
           end;
    reflexivity.
Qed.

(** X11. After mount no event requests the microphone again or replaces
    an audio context: the number of [getUserMedia] calls stays 1 and the
    two context refs stay the 16 kHz and 24 kHz contexts, through mute
    clicks, ticks, messages and teardown. *)
Theorem device_is_acquired_once decodeAudio evs :
  let st := run decodeAudio evs mounted0 in
  micRequests (host st) = 1%nat /\
  inputAudioContextRef (refs st) = Some 16000 /\
  outputAudioContextRef (refs st) = Some 24000.
Proof.
  cbv zeta.
  assert (Hgen : forall st, deviceView (run decodeAudio evs st) = deviceView st).
  { induction evs as [| ev evs IH]; intros st; [ reflexivity | ].
    cbn [run fold_left]. fold (run decodeAudio evs (step decodeAudio st ev)).
    rewrite IH. apply step_deviceView. }
  specialize (Hgen mounted0). unfold deviceView in Hgen.
  inversion Hgen as [[H1 H2 H3]]. repeat split.
Qed.

(** * The message handler around its await *)

(** The handler that nothing overlaps is its first half followed at once
    by its second half. *)
Lemma onmessage_begin_resume decodeAudio now m st :
  onmessage decodeAudio now m st
  = match onmessageBegin decodeAudio now m st with
    | (st1, Some k) => onmessageResume k st1
    | (st1, None) => Done tt st1
    end.
Proof.
  unfold onmessageBegin.
  destruct (mounted (clo st)) eqn:Hm; cbn [negb].
  - rewrite (onmessage_mounted _ _ _ _ Hm). cbv zeta.
    destruct (base64AudioOf m) as [s |]; [ | reflexivity ].
    destruct (outputAudioContextRef (refs st)); [ | reflexivity ].
    destruct (truthy s); [ | reflexivity ].
    unfold onmessageResume, scheduleForPlayback, bind, modify.
    cbn [awaited thenInterrupts].
    destruct (decodeAudio s) as [buf |]; reflexivity.
  - now rewrite (onmessage_unmounted _ _ _ _ Hm).
Qed.

Lemma onmessageBegin_audible decodeAudio now m s b st :
  mounted (clo st) = true ->
  is_Some (outputAudioContextRef (refs st)) ->
  audible decodeAudio m s b ->
  onmessageBegin decodeAudio now m st
  = (on_refs (set_nextStartTime (Qmax (cursor st) now)) st,
     Some (mkSuspended (Some b) false)).
Proof.
  intros Hm [c Hc] (Hb & Ht & Hd & Hi). unfold onmessageBegin.
  now rewrite Hm, Hb, Hc, Ht, Hd, Hi.
Qed.

(** The second half on a decoded buffer, in any state. *)
Lemma onmessageResume_decoded k b st :
  awaited k = Some b -> thenInterrupts k = false ->
  exists h st',
    onmessageResume k st = Done tt st' /\
    nodes (host st) !! h = None /\
    nodes (host st') = <[h := mkSourceNode (Some b) (Some (cursor st)) false]>
                         (nodes (host st)) /\
    cursor st' = (cursor st + duration b)%Q /\
    active st' = {[h]} ∪ active st /\
    besidePlayback st' = besidePlayback st.
Proof.
  intros Ha Hi. unfold onmessageResume. rewrite Ha, Hi.
  exists (fresh (dom (nodes (host st)))). eexists. split; [ reflexivity | ].
  split; [ apply fresh_node_unused | ]. repeat split.
Qed.

Lemma scheduleForPlayback_beside decodeAudio now s st h st' :
  scheduleForPlayback decodeAudio now s st = Done h st' ->
  besidePlayback st' = besidePlayback st.
Proof.
  destruct (decodeAudio s) as [buf |] eqn:Hd.
  - rewrite (scheduleForPlayback_decoded _ _ _ _ _ Hd). intros H.
    inversion H; subst. reflexivity.
  - rewrite (scheduleForPlayback_failed _ _ _ _ Hd). discriminate.
Qed.

Lemma besidePlayback_live a b :
  besidePlayback a = besidePlayback b ->
  mounted (clo a) = mounted (clo b) /\
  outputAudioContextRef (refs a) = outputAudioContextRef (refs b).
Proof. unfold besidePlayback. intros H. inversion H. split; congruence. Qed.

Lemma onmessage_audible decodeAudio now m s b st h st1 :
  mounted (clo st) = true ->
  is_Some (outputAudioContextRef (refs st)) ->
  audible decodeAudio m s b ->
  scheduleForPlayback decodeAudio now s st = Done h st1 ->
  onmessage decodeAudio now m st = Done tt st1 /\
  mounted (clo st1) = true /\
  is_Some (outputAudioContextRef (refs st1)).
Proof.
  intros Hm [c Hc] (Hb & Ht & Hd & Hi) Hrun.
  destruct (besidePlayback_live _ _ (scheduleForPlayback_beside _ _ _ _ _ _ Hrun))
    as [Hm1 Hc1].
  split; [ | split; [ congruence | rewrite Hc1, Hc; now exists c ] ].
  rewrite (onmessage_mounted _ _ _ _ Hm). cbv zeta.
  now rewrite Hb, Hc, Ht, Hrun, Hi.
Qed.

(** A message that arrives while nothing is suspended and whose decoding
    settles before anything else happens is the handler run in one go. *)
Lemma turns_message_settles decodeAudio now message m :
  connectCalled (component m) = true ->
  awaiting m = [] ->
  let m' := turns decodeAudio [Callback (Message now message); Settles 0] m in
  component m' = final (onmessage decodeAudio now message (component m)) /\
  awaiting m' = [].
Proof.
  intros Hc Hw. cbv zeta. cbn [turns fold_left turn]. rewrite Hc, Hw.
  rewrite onmessage_begin_resume.
  destruct (onmessageBegin decodeAudio now message (component m))
    as [st1 [k |]]; cbn; split; reflexivity.
Qed.

Lemma besidePlayback_connectCalled a b :
  besidePlayback a = besidePlayback b -> connectCalled a = connectCalled b.
Proof.
  unfold besidePlayback, connectCalled. intros H. inversion H. congruence.
Qed.

Lemma turns_app decodeAudio ts1 ts2 m :
  turns decodeAudio (ts1 ++ ts2) m
  = turns decodeAudio ts2 (turns decodeAudio ts1 m).
Proof. unfold turns. apply fold_left_app. Qed.

Lemma turns_message_done decodeAudio now message m st' :
  connectCalled (component m) = true ->
  awaiting m = [] ->
  onmessage decodeAudio now message (component m) = Done tt st' ->
  turns decodeAudio [Callback (Message now message); Settles 0] m
  = mkMachine st' [].
Proof.
  intros Hc Hw Hon.
  destruct (turns_message_settles decodeAudio now message m Hc Hw)
    as [Hcomp Hwait].
  rewrite Hon in Hcomp. cbn [final] in Hcomp.
  destruct (turns decodeAudio [Callback (Message now message); Settles 0] m)
    as [st'' w]. cbn [component awaiting] in Hcomp, Hwait. congruence.
Qed.

(** C1 (as amended). The handler of a chunk that decodes: before its
    await it raises the cursor to [max(nextStartTime, now)]; after the
    await, in whatever state the component is in by then, it creates a
    fresh source node holding the buffer, starts it at the cursor as it
    is at that moment, advances the cursor by the duration and adds the
    node to the active set, from which the node's ['ended'] listener
    removes it. When nothing runs during the await the start is
    [max(nextStartTime, now)], no earlier than the clock reading; three
    chunks handled one after the other, each arriving no later than the
    cursor left by the previous one, then start at [t0], [t0 + d1] and
    [t0 + d1 + d2], which is also what the machine does when each
    decoding settles before the next message; a chunk arriving after the
    cursor starts at the clock reading. *)
Theorem chunk_starts_at_the_cursor_on_resumption
    decodeAudio now1 now2 now3 m1 m2 m3 s1 s2 s3 b1 b2 b3 st stR :
  mounted (clo st) = true ->
  is_Some (outputAudioContextRef (refs st)) ->
  audible decodeAudio m1 s1 b1 ->
  audible decodeAudio m2 s2 b2 ->
  audible decodeAudio m3 s3 b3 ->
  let t0 := Qmax (cursor st) now1 in
  (exists k,
     onmessageBegin decodeAudio now1 m1 st
     = (on_refs (set_nextStartTime t0) st, Some k) /\
     awaited k = Some b1 /\
     exists h st',
       onmessageResume k stR = Done tt st' /\
       nodes (host stR) !! h = None /\
       nodes (host st') !! h
       = Some (mkSourceNode (Some b1) (Some (cursor stR)) false) /\
       cursor st' = (cursor stR + duration b1)%Q /\
       active st' = {[h]} ∪ active stR /\
       (h ∉ active (ended h st'))) /\
  exists h1 st1,
    onmessage decodeAudio now1 m1 st = Done tt st1 /\
    nodes (host st) !! h1 = None /\
    nodes (host st1) !! h1 = Some (mkSourceNode (Some b1) (Some t0) false) /\
    cursor st1 = (t0 + duration b1)%Q /\
    active st1 = {[h1]} ∪ active st /\
    (h1 ∉ active (ended h1 st1)) /\
    (now1 <= t0)%Q /\
    ((cursor st < now1)%Q -> startOf st1 h1 = Some now1) /\
    ((now2 <= t0 + duration b1)%Q ->
     (now3 <= t0 + duration b1 + duration b2)%Q ->
     exists h2 st2 h3 st3 t1 t2,
       onmessage decodeAudio now2 m2 st1 = Done tt st2 /\
       onmessage decodeAudio now3 m3 st2 = Done tt st3 /\
       h1 <> h2 /\ h1 <> h3 /\ h2 <> h3 /\
       startOf st3 h1 = Some t0 /\
       startOf st3 h2 = Some t1 /\ (t1 == t0 + duration b1)%Q /\
       startOf st3 h3 = Some t2 /\
       (t2 == t0 + duration b1 + duration b2)%Q /\
       (cursor st3 == t0 + duration b1 + duration b2 + duration b3)%Q /\
       active st3 = {[h3]} ∪ ({[h2]} ∪ ({[h1]} ∪ active st)) /\
       (connectCalled st = true ->
        turns decodeAudio
          [Callback (Message now1 m1); Settles 0;
           Callback (Message now2 m2); Settles 0;
           Callback (Message now3 m3); Settles 0] (mkMachine st [])
        = mkMachine st3 [])).
Proof.
  intros Hm Hc Ha1 Ha2 Ha3 t0. split.
  - exists (mkSuspended (Some b1) false).
    split; [ exact (onmessageBegin_audible _ _ _ _ _ _ Hm Hc Ha1) | ].
    split; [ reflexivity | ].
    destruct (onmessageResume_decoded (mkSuspended (Some b1) false) b1 stR
                eq_refl eq_refl)
      as (h & st' & Hrun & Hfresh & Hnodes & Hcur & Hact & _).
    exists h, st'. repeat match goal with |- _ /\ _ => split end;
      try assumption.
    + rewrite Hnodes. apply lookup_insert_eq.
    + apply ended_removes.
  - pose proof Ha1 as (_ & _ & Hd1 & _).
    pose proof Ha2 as (_ & _ & Hd2 & _).
    pose proof Ha3 as (_ & _ & Hd3 & _).
    destruct (scheduleForPlayback_gapless decodeAudio now1 now2 now3
                s1 s2 s3 b1 b2 b3 st Hd1 Hd2 Hd3)
      as (h1 & st1 & Hrun1 & Hfresh1 & Hnode1 & Hcur1 & Hact1 & Hend1 & Hge
          & Hlate & Hseq).
    destruct (onmessage_audible _ _ _ _ _ _ _ _ Hm Hc Ha1 Hrun1)
      as (Hon1 & Hm1 & Hc1).
    exists h1, st1. repeat match goal with |- _ /\ _ => split end;
      try assumption.
    intros Hnow2 Hnow3.
    destruct (Hseq Hnow2 Hnow3)
      as (h2 & st2 & h3 & st3 & t1 & t2 & Hrun2 & Hrun3 & Hrest).
    destruct (onmessage_audible _ _ _ _ _ _ _ _ Hm1 Hc1 Ha2 Hrun2)
      as (Hon2 & Hm2 & Hc2).
    destruct (onmessage_audible _ _ _ _ _ _ _ _ Hm2 Hc2 Ha3 Hrun3)
      as (Hon3 & _ & _).
    exists h2, st2, h3, st3, t1, t2.
    split; [ exact Hon2 | ]. split; [ exact Hon3 | ].
    destruct Hrest as (Hn12 & Hn13 & Hn23 & Hs1 & Hs2 & Ht1 & Hs3 & Ht2
                       & Hcur3 & Hact3).
    repeat match goal with |- _ /\ _ => split end; try assumption.
    intros Hcc.
    pose proof (besidePlayback_connectCalled _ _
                  (scheduleForPlayback_beside _ _ _ _ _ _ Hrun1)) as Hcc1.
    pose proof (besidePlayback_connectCalled _ _
                  (scheduleForPlayback_beside _ _ _ _ _ _ Hrun2)) as Hcc2.
    change [Callback (Message now1 m1); Settles 0;
            Callback (Message now2 m2); Settles 0;
            Callback (Message now3 m3); Settles 0]
      with ([Callback (Message now1 m1); Settles 0]
            ++ [Callback (Message now2 m2); Settles 0]
            ++ [Callback (Message now3 m3); Settles 0]).
    rewrite !turns_app.
    rewrite (turns_message_done decodeAudio now1 m1 (mkMachine st []) st1
               Hcc eq_refl Hon1).
    rewrite (turns_message_done decodeAudio now2 m2 (mkMachine st1 []) st2
               (eq_trans Hcc1 Hcc) eq_refl Hon2).
    apply (turns_message_done decodeAudio now3 m3 (mkMachine st2 []) st3
             (eq_trans Hcc2 (eq_trans Hcc1 Hcc)) eq_refl Hon3).
Qed.

Lemma chunk_starts_at_the_cursor_on_resumption_witness :
  let st := run lengthDecoder [MicGranted; Open] mounted0 in
  mounted (clo st) = true /\
  (exists k h st',
     onmessageBegin lengthDecoder 1 (audioMessage "AAAA" None) st
     = (on_refs (set_nextStartTime 1) st, Some k) /\
     onmessageResume k (interrupt st) = Done tt st' /\
     startOf st' h = Some 0%Q /\ h ∈ active st') /\
  exists h1 st1 h2 st2 h3 st3,
    onmessage lengthDecoder 1 (audioMessage "AAAA" None) st = Done tt st1 /\
    onmessage lengthDecoder 1 (audioMessage "AAAAAAAA" None) st1 = Done tt st2 /\
    onmessage lengthDecoder 1 (audioMessage "AAAAAAAAAAAA" None) st2
    = Done tt st3 /\
    startOf st3 h1 = Some 1%Q /\
    (exists t1, startOf st3 h2 = Some t1 /\ (t1 == 1 + (4 # 24000))%Q) /\
    (exists t2, startOf st3 h3 = Some t2 /\
                (t2 == 1 + (4 # 24000) + (8 # 24000))%Q).
Proof.
  cbv zeta.
  set (st := run lengthDecoder [MicGranted; Open] mounted0).
  assert (Hctx : is_Some (outputAudioContextRef (refs st)))
    by (now exists 24000).
  assert (Haud : forall s : string, truthy s = true ->
            audible lengthDecoder (audioMessage s None) s
              (mkAudioBuffer (N.of_nat (String.length s)) 24000))
    by (intros s Hs; repeat split; exact Hs).
  destruct (chunk_starts_at_the_cursor_on_resumption lengthDecoder 1 1 1
              (audioMessage "AAAA" None) (audioMessage "AAAAAAAA" None)
              (audioMessage "AAAAAAAAAAAA" None) _ _ _ _ _ _
              st (interrupt st) eq_refl Hctx
              (Haud "AAAA"%string eq_refl) (Haud "AAAAAAAA"%string eq_refl)
              (Haud "AAAAAAAAAAAA"%string eq_refl))
    as ((k & Hbegin & _ & h & st' & Hres & _ & Hnode & _ & Hact & _)
        & h1 & st1 & Hon1 & _ & _ & _ & _ & _ & _ & _ & Hseq).
  destruct Hseq as (h2 & st2 & h3 & st3 & t1 & t2 & Hon2 & Hon3 & _ & _ & _
                    & Hs1 & Hs2 & Ht1 & Hs3 & Ht2 & _).
  { vm_compute. discriminate. }
  { vm_compute. discriminate. }
  split; [ reflexivity | ]. split.
  - exists k, h, st'. split; [ exact Hbegin | ]. split; [ exact Hres | ].
    split.
    + unfold startOf. rewrite Hnode. reflexivity.
    + rewrite Hact. apply elem_of_union_l. now apply elem_of_singleton.
  - exists h1, st1, h2, st2, h3, st3.
    split; [ exact Hon1 | ]. split; [ exact Hon2 | ]. split; [ exact Hon3 | ].
    split; [ exact Hs1 | ].
    split; [ exists t1; split; [ exact Hs2 | exact Ht1 ] | ].
    exists t2; split; [ exact Hs3 | exact Ht2 ].
Defined.

(** C1 (as stated) fails: a chunk arrives at clock reading 1 with the
    cursor at 0, so its start would be [max(0, 1) = 1]; an interruption
    is handled while the chunk is being decoded and puts the cursor back
    to 0; when the decoding is done the chunk is started at 0. *)
Lemma chunk_start_is_not_max_after_interruption :
  let arrived := turns lengthDecoder
                   [Callback MicGranted; Callback Open;
                    Callback (Message 1 (audioMessage "AAAAAA" None))]
                   machine0 in
  let settled := turns lengthDecoder
                   [Callback (Message 1 interruptionMessage); Settles 0]
                   arrived in
  cursor (component machine0) = 0%Q /\
  cursor (component arrived) = Qmax 0 1 /\
  Qmax 0 1 = 1%Q /\
  awaiting arrived = [mkSuspended (Some (mkAudioBuffer 6 24000)) false] /\
  startOf (component settled) 0 = Some 0%Q /\
  ~ (0 == Qmax 0 1)%Q.
Proof.
  cbv zeta. repeat split; try (vm_compute; reflexivity).
  vm_compute. discriminate.
Qed.

(** C2 (as amended). The interruption branch stops every source node of
    the active set and no other, empties the set and puts the cursor
    back to 0; it is all a mounted component does with an interruption
    message. When no handler is suspended at its await at that moment,
    the set is empty and the cursor 0 afterwards with nothing left to
    come, and the next chunk, handled with nothing in between at a clock
    reading [now >= 0], starts at [now] and is the only active handle. A
    chunk whose decoding is pending while the interruption runs is not
    flushed: when it goes on it is started at the cursor of that moment
    (0 right after the interruption), unstopped, and joins the set. *)
Theorem interruption_flushes_what_is_scheduled
    decodeAudio now0 now message s buf m :
  mounted (clo (component m)) = true ->
  connectCalled (component m) = true ->
  is_Some (outputAudioContextRef (refs (component m))) ->
  awaiting m = [] ->
  (0 <= now)%Q ->
  audible decodeAudio message s buf ->
  let st := component m in
  let m1 := turn decodeAudio m (Callback (Message now0 interruptionMessage)) in
  let m2 := turns decodeAudio [Callback (Message now message); Settles 0] m1 in
  (forall h n, h ∈ active st -> nodes (host st) !! h = Some n ->
     nodes (host (interrupt st)) !! h = Some (sn_stop n) /\
     isStopped (interrupt st) h = true) /\
  (forall h, h ∉ active st ->
     nodes (host (interrupt st)) !! h = nodes (host st) !! h) /\
  onmessage decodeAudio now0 interruptionMessage st = Done tt (interrupt st) /\
  component m1 = interrupt st /\
  awaiting m1 = [] /\
  active (component m1) = ∅ /\
  cursor (component m1) = 0%Q /\
  (exists h, startOf (component m2) h = Some now /\
             active (component m2) = {[h]} /\
             isStopped (component m2) h = false /\
             awaiting m2 = []) /\
  (forall k b, awaited k = Some b -> thenInterrupts k = false ->
     exists h st',
       onmessageResume k (interrupt st) = Done tt st' /\
       startOf st' h = Some 0%Q /\
       active st' = {[h]} /\
       isStopped st' h = false).
Proof.
  intros Hm Hc Hctx Hw Hnow Haud. cbv zeta.
  pose proof Haud as (_ & _ & Hd & _).
  destruct (interrupt_flushes decodeAudio now s buf (component m) Hnow Hd)
    as (Hstop & Hkeep & Hact & Hcur & Hmsg & h & st' & Hrun & Hstart & Hact').
  assert (Hm1 : turn decodeAudio m (Callback (Message now0 interruptionMessage))
                = mkMachine (interrupt (component m)) []).
  { cbn [turn]. rewrite Hc. unfold onmessageBegin. rewrite Hm. cbn.
    rewrite Hw. destruct (outputAudioContextRef (refs (component m)));
      reflexivity. }
  rewrite Hm1. cbn [component awaiting].
  repeat match goal with |- _ /\ _ => split end; try assumption;
    try reflexivity.
  - now apply Hmsg.
  - destruct (turns_message_settles decodeAudio now message
                (mkMachine (interrupt (component m)) []) Hc eq_refl)
      as [Hcomp Hwait].
    cbn [component] in Hcomp.
    assert (Hctx' : is_Some (outputAudioContextRef
                               (refs (interrupt (component m))))) by exact Hctx.
    destruct (onmessage_audible decodeAudio now message s buf
                (interrupt (component m)) h st' Hm Hctx' Haud Hrun)
      as (Hon & _ & _).
    rewrite Hon in Hcomp. cbn [final] in Hcomp.
    exists h. rewrite Hcomp. repeat split; try assumption.
    unfold isStopped, startOf in *.
    rewrite (scheduleForPlayback_decoded _ _ _ _ _ Hd) in Hrun.
    inversion Hrun; subst. cbn. now rewrite lookup_insert_eq.
  - intros k b Ha Hi.
    destruct (onmessageResume_decoded k b (interrupt (component m)) Ha Hi)
      as (h' & st'' & Hres & _ & Hnodes & _ & Hact'' & _).
    exists h', st''. split; [ exact Hres | ].
    split; [ unfold startOf; rewrite Hnodes, lookup_insert_eq; reflexivity | ].
    split; [ rewrite Hact'', Hact; apply union_empty_r_L | ].
    unfold isStopped. now rewrite Hnodes, lookup_insert_eq.
Qed.

Lemma interruption_flushes_what_is_scheduled_witness :
  let m := turns lengthDecoder
             [Callback MicGranted; Callback Open;
              Callback (Message 1 (audioMessage "AAAA" None)); Settles 0;
              Callback (Message 1 (audioMessage "AAAA" None)); Settles 0]
             machine0 in
  let m1 := turn lengthDecoder m (Callback (Message 2 interruptionMessage)) in
  let m2 := turns lengthDecoder
              [Callback (Message 3 (audioMessage "AAAA" None)); Settles 0] m1 in
  awaiting m = [] /\ (0 <= 3)%Q /\
  size (active (component m)) = 2%nat /\
  active (component m1) = ∅ /\
  exists h, startOf (component m2) h = Some 3%Q /\
            active (component m2) = {[h]}.
Proof.
  cbv zeta.
  set (m := turns lengthDecoder
             [Callback MicGranted; Callback Open;
              Callback (Message 1 (audioMessage "AAAA" None)); Settles 0;
              Callback (Message 1 (audioMessage "AAAA" None)); Settles 0]
             machine0).
  assert (Hnow : (0 <= 3)%Q) by (vm_compute; discriminate).
  assert (Hctx : is_Some (outputAudioContextRef (refs (component m))))
    by (now exists 24000).
  assert (Haud : audible lengthDecoder (audioMessage "AAAA" None) "AAAA"
                   (mkAudioBuffer 4 24000)) by (repeat split).
  destruct (interruption_flushes_what_is_scheduled lengthDecoder 2 3
              (audioMessage "AAAA" None) "AAAA" (mkAudioBuffer 4 24000) m
              eq_refl eq_refl Hctx eq_refl Hnow Haud)
    as (_ & _ & _ & _ & _ & Hact & _ & (h & Hstart & Hact2 & _) & _).
  split; [ reflexivity | ]. split; [ exact Hnow | ].
  split; [ vm_compute; reflexivity | ].
  split; [ exact Hact | ].
  exists h. split; [ exact Hstart | exact Hact2 ].
Defined.

(** C2 (as stated) fails: a chunk is being decoded when the interruption
    is handled; once decoded it is started (at the reset cursor 0) and
    sits in the active set, unstopped; the chunk after it, arriving at
    clock reading 1/8000, starts at 1/4000, the cursor the first chunk
    left, not at the clock reading. *)
Lemma interruption_misses_the_chunk_in_flight :
  let interrupted :=
    turns lengthDecoder
      [Callback MicGranted; Callback Open;
       Callback (Message 0 (audioMessage "AAAAAA" None));
       Callback (Message (1 # 10000) interruptionMessage)] machine0 in
  let settled := turn lengthDecoder interrupted (Settles 0) in
  let next := turns lengthDecoder
                [Callback (Message (1 # 8000) (audioMessage "AAAA" None));
                 Settles 0] settled in
  active (component interrupted) = ∅ /\
  active (component settled) = {[ 0%nat ]} /\
  isStopped (component settled) 0 = false /\
  startOf (component next) 1 = Some (6 # 24000)%Q /\
  ~ (6 # 24000 == 1 # 8000)%Q.
Proof.
  cbv zeta. repeat split; try (vm_compute; reflexivity).
  vm_compute. discriminate.
Qed.

Lemma interrupt_creates_nothing st h :
  nodes (host st) !! h = None -> nodes (host (interrupt st)) !! h = None.
Proof.
  intros Hn. destruct (interrupt_fields st) as (_ & _ & Hnodes & _).
  rewrite Hnodes, stopAll_lookup, Hn.
  destruct (decide (h ∈ active st)); reflexivity.
Qed.

(** C7 (as amended). A message whose audio payload is absent or the
    empty string schedules nothing, whatever the decoder: the handler
    ends without reaching its await, no source node is created and
    nothing is added to the active set; unless the message carries the
    interrupted flag the whole state, cursor included, is as before, and
    with the flag (on a mounted component) the handler is the
    interruption alone (an unmounted component ignores the message
    altogether). The duration of a decoded buffer is not looked
    at: a non-empty payload that decodes to a buffer of duration 0 gets
    a fresh handle, started at [max(cursor, now)], which joins the active
    set, and the cursor is raised to that instant. *)
Theorem empty_payload_is_noop decodeAudio now message st :
  (base64AudioOf message = None \/ base64AudioOf message = Some EmptyString) ->
  (exists st',
     onmessage decodeAudio now message st = Done tt st' /\
     onmessageBegin decodeAudio now message st = (st', None) /\
     (forall h, nodes (host st) !! h = None -> nodes (host st') !! h = None) /\
     active st' ⊆ active st /\
     (interruptedOf message = false -> st' = st) /\
     (mounted (clo st) = false -> st' = st) /\
     (interruptedOf message = true -> mounted (clo st) = true ->
      st' = interrupt st)) /\
  (forall message' s buf,
     mounted (clo st) = true ->
     is_Some (outputAudioContextRef (refs st)) ->
     audible decodeAudio message' s buf ->
     (duration buf == 0)%Q ->
     exists h st',
       onmessage decodeAudio now message' st = Done tt st' /\
       nodes (host st) !! h = None /\
       h ∈ active st' /\
       startOf st' h = Some (Qmax (cursor st) now) /\
       isStopped st' h = false /\
       (cursor st' == Qmax (cursor st) now)%Q).
Proof.
  intros Hempty. split.
  - assert (Hbegin : onmessageBegin decodeAudio now message st
                     = (if mounted (clo st) && interruptedOf message
                        then interrupt st else st, None)).
    { unfold onmessageBegin. destruct (mounted (clo st)); [ | reflexivity ].
      cbn [negb andb].
      destruct Hempty as [-> | ->]; [ reflexivity | ].
      destruct (outputAudioContextRef (refs st)); reflexivity. }
    exists (if mounted (clo st) && interruptedOf message
            then interrupt st else st).
    split; [ rewrite onmessage_begin_resume, Hbegin; reflexivity | ].
    split; [ exact Hbegin | ].
    destruct (mounted (clo st)), (interruptedOf message); cbn [andb];
      repeat split; try reflexivity; try discriminate;
      try (intros h Hh; exact Hh).
    intros h Hh. now apply interrupt_creates_nothing.
  - intros message' s buf Hm Hctx Haud Hzero.
    pose proof Haud as (_ & _ & Hd & _).
    destruct (scheduleForPlayback_starts decodeAudio now s buf st Hd)
      as (h & st' & Hrun & Hfresh & Hstart & _ & Hcur & Hact).
    destruct (onmessage_audible _ _ _ _ _ _ _ _ Hm Hctx Haud Hrun)
      as (Hon & _ & _).
    exists h, st'. repeat match goal with |- _ /\ _ => split end;
      try assumption.
    + rewrite Hact. apply elem_of_union_l. now apply elem_of_singleton.
    + rewrite (scheduleForPlayback_decoded _ _ _ _ _ Hd) in Hrun.
      inversion Hrun; subst. unfold isStopped. cbn.
      now rewrite lookup_insert_eq.
    + rewrite Hcur, Hzero. apply Qplus_0_r.
Qed.

Lemma empty_payload_is_noop_witness :
  let st := run lengthDecoder
              [MicGranted; Open; Message 1 (audioMessage "AAAA" None)]
              mounted0 in
  onmessage lengthDecoder 2 (audioMessage EmptyString None) st = Done tt st /\
  onmessage lengthDecoder 2 (audioMessage EmptyString (Some true)) st
  = Done tt (interrupt st) /\
  exists h st',
    onmessage emptyDecoder 2 (audioMessage "AAAA" None) st = Done tt st' /\
    h ∈ active st' /\
    startOf st' h = Some 2%Q.
Proof.
  cbv zeta.
  set (st := run lengthDecoder
              [MicGranted; Open; Message 1 (audioMessage "AAAA" None)]
              mounted0).
  destruct (empty_payload_is_noop lengthDecoder 2
              (audioMessage EmptyString None) st (or_intror eq_refl))
    as ((st1 & Hon1 & _ & _ & _ & Hsame & _ & _) & _).
  destruct (empty_payload_is_noop lengthDecoder 2
              (audioMessage EmptyString (Some true)) st (or_intror eq_refl))
    as ((st2 & Hon2 & _ & _ & _ & _ & _ & Hint) & _).
  destruct (empty_payload_is_noop emptyDecoder 2
              (audioMessage EmptyString None) st (or_intror eq_refl))
    as (_ & Hzero).
  destruct (Hzero (audioMessage "AAAA" None) "AAAA"%string
              (mkAudioBuffer 0 24000) eq_refl
              (ex_intro _ 24000 eq_refl)) as (h & st' & Hon & _ & Hin & Hstart & _).
  { repeat split. }
  { reflexivity. }
  split; [ rewrite Hon1, (Hsame eq_refl); reflexivity | ].
  split; [ rewrite Hon2, (Hint eq_refl eq_refl); reflexivity | ].
  exists h, st'. split; [ exact Hon | ]. split; [ exact Hin | ].
  rewrite Hstart. vm_compute. reflexivity.
Defined.

Lemma turn_gapless decodeAudio m t :
  gapless (component m) -> gapless (component (turn decodeAudio m t)).
Proof.
  intros Hg. destruct t as [ev | i].
  - assert (Hstep : gapless (step decodeAudio (component m) ev))
      by now apply step_gapless.
    destruct ev; try exact Hstep.
    cbn [turn]. destruct (connectCalled (component m)); [ | exact Hg ].
    unfold onmessageBegin.
    destruct (mounted (clo (component m))); cbn [negb]; [ | exact Hg ].
    assert (Hafter : gapless (if interruptedOf message
                              then interrupt (component m) else component m))
      by (destruct (interruptedOf message);
          [ apply gapless_interrupt | exact Hg ]).
    destruct (base64AudioOf message) as [s |]; [ | exact Hafter ].
    destruct (outputAudioContextRef (refs (component m))); [ | exact Hafter ].
    destruct (truthy s); [ | exact Hafter ].
    cbn [component]. now apply gapless_raise.
  - cbn [turn]. destruct (awaiting m !! i) as [k |]; [ | exact Hg ].
    cbn [component]. unfold onmessageResume.
    destruct (awaited k) as [buf |]; [ | exact Hg ].
    cbn [final]. destruct (thenInterrupts k);
      [ apply gapless_interrupt | now apply gapless_scheduleDecoded ].
Qed.

Lemma turns_gapless decodeAudio ts m :
  gapless (component m) -> gapless (component (turns decodeAudio ts m)).
Proof.
  revert m. induction ts as [| t ts IH]; intros m Hg; [ exact Hg | ].
  cbn [turns fold_left]. apply IH. now apply turn_gapless.
Qed.

(** X16. Also when handlers overlap, that is for every sequence of
    callbacks and settling decode promises after mount, each handle of
    the active set is a started, unstopped source node with its buffer
    whose interval ends at or before the cursor, and the intervals of two
    distinct handles of the set do not overlap. *)
Theorem overlapping_handlers_keep_chunks_apart decodeAudio ts :
  let st := component (turns decodeAudio ts machine0) in
  (forall h, h ∈ active st ->
     exists b t,
       nodes (host st) !! h = Some (mkSourceNode (Some b) (Some t) false) /\
       (t + duration b <= cursor st)%Q) /\
  (forall h1 h2 t1 e1 t2 e2,
     h1 ∈ active st -> h2 ∈ active st -> h1 <> h2 ->
     intervalOf st h1 = Some (t1, e1) ->
     intervalOf st h2 = Some (t2, e2) ->
     (e1 <= t2)%Q \/ (e2 <= t1)%Q).
Proof.
  cbv zeta.
  destruct (turns_gapless decodeAudio ts machine0 gapless_mounted0) as [Ha Hb].
  split; [ exact Ha | ].
  intros h1 h2 t1 e1 t2 e2 H1 H2 Hne Hi1 Hi2.
  destruct (intervalOf_Some _ _ _ _ Hi1) as (b1 & s1 & Hn1 & ->).
  destruct (intervalOf_Some _ _ _ _ Hi2) as (b2 & s2 & Hn2 & ->).
  destruct (Ha h1 H1) as (b1' & t1' & Hn1' & _).
  destruct (Ha h2 H2) as (b2' & t2' & Hn2' & _).
  rewrite Hn1 in Hn1'. inversion Hn1'; subst.
  rewrite Hn2 in Hn2'. inversion Hn2'; subst.
  exact (Hb h1 h2 _ _ _ _ H1 H2 Hne Hn1 Hn2).
Qed.

Import Prompts Dashboard.

(** * Facts about the prompts *)

Lemma length_substring0 (n : nat) (s : string) :
  String.length (substring 0 n s) = Nat.min n (String.length s).
Proof.
  revert s. induction n as [| n IH]; intros [| c s]; cbn [substring String.length];
    try reflexivity.
  now rewrite IH.
Qed.

Lemma length_append (s1 s2 : string) :
  String.length (s1 ++ s2) = (String.length s1 + String.length s2)%nat.
Proof.
  induction s1 as [| c s1 IH]; [ reflexivity | ].
  change (String.length (String c (s1 ++ s2))
          = S (String.length s1 + String.length s2)).
  cbn [String.length]. now rewrite IH.
Qed.

Lemma substring0_prefix (n : nat) (s : string) :
  String.prefix (substring 0 n s) s = true.
Proof.
  revert s. induction n as [| n IH]; intros [| c s];
    cbn [substring String.prefix]; try reflexivity.
  destruct (Ascii.ascii_dec c c) as [_ | Hne]; [ apply IH | now elim Hne ].
Qed.

(** X10. The article text [generatePodcastAudio] puts into the prompt is
    at most 2503 units long; text of at most 2500 units is passed as it
    is; longer text is cut to its first 2500 units followed by three
    dots, 2503 units in all (more than the input for 2501 or 2502). *)
Theorem safeContent_is_bounded (content : string) :
  (String.length (safeContent content) <= 2503)%nat /\
  ((String.length content <= 2500)%nat -> safeContent content = content) /\
  ((2500 < String.length content)%nat ->
   exists head,
     String.length head = 2500%nat /\
     String.prefix head content = true /\
     safeContent content = (head ++ "...")%string /\
     String.length (safeContent content) = 2503%nat).
Proof.
  unfold safeContent.
  destruct (Nat.ltb_spec 2500 (String.length content)) as [Hlong | Hshort].
  - assert (Hhead : String.length (substring 0 2500 content) = 2500%nat).
    { rewrite length_substring0. apply Nat.min_l. lia. }
    assert (Hlen : String.length (substring 0 2500 content ++ "...") = 2503%nat).
    { rewrite length_append, Hhead. reflexivity. }
    split; [ rewrite Hlen; lia | ]. split; [ lia | ].
    intros _. exists (substring 0 2500 content).
    split; [ exact Hhead | ]. split; [ apply substring0_prefix | ].
    split; [ reflexivity | exact Hlen ].
  - split; [ lia | ]. split; [ reflexivity | lia ].
Qed.

(** * Facts about the dashboard's store *)

Lemma selectedArticle_replaceArticle u prev i :
  selectedArticle (replaceArticle u prev) (Some i)
  = (fun a => if String.eqb i (art_id u) then u else a)
      <$> selectedArticle prev (Some i).
Proof.
  unfold selectedArticle, replaceArticle.
  induction prev as [| a prev IH]; [ reflexivity | ].
  cbn [map find].
  destruct (String.eqb_spec (art_id a) (art_id u)) as [Hau | Hau].
  - destruct (String.eqb_spec (art_id u) i) as [Hui | Hui].
    + rewrite Hau. rewrite (proj2 (String.eqb_eq _ _) Hui). cbn.
      subst i. now rewrite String.eqb_refl.
    + rewrite Hau. rewrite (proj2 (String.eqb_neq _ _) Hui). exact IH.
  - destruct (String.eqb_spec (art_id a) i) as [Hai | Hai].
    + cbn. subst i. now rewrite (proj2 (String.eqb_neq _ _) Hau).
    + exact IH.
Qed.

Lemma replaceArticle_ids u prev :
  map art_id (replaceArticle u prev) = map art_id prev.
Proof.
  unfold replaceArticle. induction prev as [| a prev IH]; [ reflexivity | ].
  cbn [map]. rewrite IH. f_equal.
  destruct (String.eqb_spec (art_id a) (art_id u)) as [Hau | _]; congruence.
Qed.

(** X12. Replacing an article in the list keeps the ids, their order and
    the length; looking an article up by id afterwards gives the updated
    article for its id and the same article as before for any other id;
    when no article has the id, the list is unchanged. *)
Theorem replaceArticle_updates_in_place u prev i :
  map art_id (replaceArticle u prev) = map art_id prev /\
  selectedArticle (replaceArticle u prev) (Some i)
  = (fun a => if String.eqb i (art_id u) then u else a)
      <$> selectedArticle prev (Some i) /\
  (selectedArticle prev (Some (art_id u)) = None -> replaceArticle u prev = prev).
Proof.
  split; [ apply replaceArticle_ids | ].
  split; [ apply selectedArticle_replaceArticle | ].
  unfold selectedArticle, replaceArticle.
  induction prev as [| a prev IH]; [ reflexivity | ].
  cbn [map find].
  destruct (String.eqb (art_id a) (art_id u)); [ discriminate | ].
  intros Hnone. now rewrite (IH Hnone).
Qed.

(** The key of a profile always contains [" - "]; the comic key does not. *)
Lemma getProfileKey_not_comic (p : ConsumerProfile) : getProfileKey p <> comicKey.
Proof.
  unfold getProfileKey, comicKey. destruct p as [r e t]. cbn [role expertise].
  intros H.
  repeat (destruct r as [| ? r]; cbn in H; try discriminate H;
          injection H as _ H).
Qed.

Lemma selectedArticle_saved u prev i a0 :
  art_id u = i ->
  selectedArticle prev (Some i) = Some a0 ->
  selectedArticle (replaceArticle u prev) (Some i) = Some u.
Proof.
  intros <- Hsel. rewrite selectedArticle_replaceArticle, Hsel. cbn.
  now rewrite String.eqb_refl.
Qed.

(** X13. After [handleGenerate] stored its result, the article found
    under the selected id is the one of the handler's snapshot with the
    new item in front, and the stored adaptation (for the profile, or for
    the comic format) or stored podcast looked up on it is the new item,
    also when older items with the same key exist. *)
Theorem generated_item_becomes_the_stored_one
    selected newAdaptation newPodcast prev profile activeFormat a0 :
  selectedArticle prev (Some (art_id selected)) = Some a0 ->
  let afterAdaptation :=
    selectedArticle (saveAdaptation selected newAdaptation prev)
                    (Some (art_id selected)) in
  let afterPodcast :=
    selectedArticle (savePodcast selected newPodcast prev)
                    (Some (art_id selected)) in
  afterAdaptation
  = Some (set_adaptations (newAdaptation :: adaptations selected) selected) /\
  (ad_profileDescription newAdaptation = getProfileKey profile ->
   activeFormat <> COMIC_BOOK ->
   storedAdaptation afterAdaptation profile activeFormat = Some newAdaptation) /\
  (ad_profileDescription newAdaptation = comicKey ->
   storedAdaptation afterAdaptation profile COMIC_BOOK = Some newAdaptation) /\
  afterPodcast
  = Some (set_podcasts (newPodcast :: podcasts selected) selected) /\
  (pod_profileDescription newPodcast = getProfileKey profile ->
   storedPodcast afterPodcast profile = Some newPodcast).
Proof.
  intros Hsel. cbv zeta. unfold saveAdaptation, savePodcast.
  rewrite (selectedArticle_saved
             (set_adaptations (newAdaptation :: adaptations selected) selected)
             prev (art_id selected) a0 eq_refl Hsel).
  rewrite (selectedArticle_saved
             (set_podcasts (newPodcast :: podcasts selected) selected)
             prev (art_id selected) a0 eq_refl Hsel).
  split; [ reflexivity | ]. split; [ | split; [ | split; [ reflexivity | ] ] ].
  - intros Hkey Hfmt. unfold storedAdaptation. cbn [adaptations set_adaptations].
    destruct activeFormat; try contradiction;
      cbn [find]; rewrite Hkey, String.eqb_refl; reflexivity.
  - intros Hkey. unfold storedAdaptation. cbn [adaptations set_adaptations find].
    now rewrite Hkey, String.eqb_refl.
  - intros Hkey. unfold storedPodcast. cbn [podcasts set_podcasts find].
    now rewrite Hkey, String.eqb_refl.
Qed.

Lemma generated_item_becomes_the_stored_one_witness :
  let older := mkAdaptation "a1" "Marketing Manager - Novice" "old text" None "t1" in
  let selected := mkArticle "1" "Quantum" "body" "Dr. Smith" true false
                    ["Tech"]%string [] [older] "2023-10-27" in
  let other := mkArticle "2" "Other" "body" "X" false false [] [] [] "d" in
  let profile := mkProfile "Marketing Manager" "Novice" "5 minutes" in
  let new := textAdaptation "a2" "new text" "t2" profile in
  storedAdaptation
    (selectedArticle (saveAdaptation selected new [other; selected]) (Some "1"%string))
    profile TEXT_SUMMARY
  = Some new.
Proof.
  cbv zeta.
  set (older := mkAdaptation "a1" "Marketing Manager - Novice" "old text" None "t1").
  set (selected := mkArticle "1" "Quantum" "body" "Dr. Smith" true false
                     ["Tech"]%string [] [older] "2023-10-27").
  set (other := mkArticle "2" "Other" "body" "X" false false [] [] [] "d").
  set (profile := mkProfile "Marketing Manager" "Novice" "5 minutes").
  set (new := textAdaptation "a2" "new text" "t2" profile).
  assert (Htext : TEXT_SUMMARY <> COMIC_BOOK) by discriminate.
  destruct (generated_item_becomes_the_stored_one selected new
              (mkPodcast "p" "k" "b" "t") [other; selected] profile
              TEXT_SUMMARY selected eq_refl)
    as (_ & Hstored & _).
  exact (Hstored eq_refl Htext).
Defined.

(** X14. A profile key never equals the comic key; so storing a comic
    script does not change which adaptation is found for a profile, and
    storing a text adaptation does not change which comic is found. *)
Theorem comic_and_text_never_shadow
    (a : Article) (profile other : ConsumerProfile)
    (uuid body createdAt : string) (activeFormat : ConsumerFormat) :
  getProfileKey profile <> comicKey /\
  (activeFormat <> COMIC_BOOK ->
   storedAdaptation
     (Some (set_adaptations
              (comicAdaptation uuid body createdAt :: adaptations a) a))
     profile activeFormat
   = storedAdaptation (Some a) profile activeFormat) /\
  storedAdaptation
    (Some (set_adaptations
             (textAdaptation uuid body createdAt other :: adaptations a) a))
    profile COMIC_BOOK
  = storedAdaptation (Some a) profile COMIC_BOOK.
Proof.
  split; [ apply getProfileKey_not_comic | ]. split.
  - intros Hfmt. unfold storedAdaptation.
    cbn [adaptations set_adaptations].
    assert (Hne : String.eqb comicKey (getProfileKey profile) = false).
    { apply String.eqb_neq. intros Heq.
      now apply (getProfileKey_not_comic profile). }
    destruct activeFormat; try contradiction;
      cbn [find comicAdaptation ad_profileDescription]; now rewrite Hne.
  - unfold storedAdaptation. cbn [adaptations set_adaptations find
      textAdaptation ad_profileDescription].
    assert (Hne : String.eqb (getProfileKey other) comicKey = false)
      by (apply String.eqb_neq, getProfileKey_not_comic).
    now rewrite Hne.
Qed.

(* ---- the illustration ---- *)

Lemma findIndex_find {A} (p : A -> bool) (f : A -> A) (l : list A) :
  (forall x, p (f x) = p x) ->
  match findIndex p l with
  | Some i => exists x, find p l = Some x /\
                        find p (alter f i l) = Some (f x)
  | None => find p l = None
  end.
Proof.
  intros Hpf. induction l as [| x l IH]; [ reflexivity | ].
  cbn [findIndex find]. destruct (p x) eqn:Hpx.
  - cbn. rewrite Hpf, Hpx. now exists x.
  - destruct (findIndex p l) as [i |]; cbn.
    + rewrite Hpx. exact IH.
    + exact IH.
Qed.

Lemma find_alter_other {A} (p q : A -> bool) (f : A -> A) (l : list A) :
  (forall x, q (f x) = q x) ->
  (forall x, p x = true -> q x = false) ->
  match findIndex p l with
  | Some i => find q (alter f i l) = find q l
  | None => True
  end.
Proof.
  intros Hqf Hpq. induction l as [| x l IH]; [ exact I | ].
  cbn [findIndex]. destruct (p x) eqn:Hpx.
  - cbn. now rewrite Hqf, (Hpq x Hpx).
  - destruct (findIndex p l) as [i |]; cbn; [ | exact I ].
    destruct (q x); [ reflexivity | exact IH ].
Qed.

Lemma findIndex_Some {A} (p : A -> bool) (l : list A) (i : nat) :
  findIndex p l = Some i ->
  exists x, l !! i = Some x /\ p x = true /\ find p l = Some x /\
            forall j y, (j < i)%nat -> l !! j = Some y -> p y = false.
Proof.
  revert i. induction l as [| x l IH]; intros i; [ discriminate | ].
  cbn [findIndex find]. destruct (p x) eqn:Hpx.
  - intros [= <-]. exists x. repeat split; auto. intros j y Hj. lia.
  - destruct (findIndex p l) as [i' |]; [ | discriminate ].
    intros [= <-]. destruct (IH i' eq_refl) as (y & Hy & Hpy & Hfind & Hbefore).
    exists y. repeat split; auto.
    intros [| j] z Hj Hz.
    + cbn in Hz. congruence.
    + cbn in Hz. apply (Hbefore j z); [ lia | exact Hz ].
Qed.

Lemma findIndex_None {A} (p : A -> bool) (l : list A) :
  findIndex p l = None -> forall x, x ∈ l -> p x = false.
Proof.
  induction l as [| x l IH]; intros Hnone y Hy.
  - now apply not_elem_of_nil in Hy.
  - cbn [findIndex] in Hnone. destruct (p x) eqn:Hpx; [ discriminate | ].
    destruct (findIndex p l); [ discriminate | ].
    apply elem_of_cons in Hy as [-> | Hy]; [ exact Hpx | now apply IH ].
Qed.

Lemma alter_is_insert {A} (f : A -> A) (l : list A) (i : nat) (x : A) :
  l !! i = Some x -> alter f i l = <[i := f x]> l.
Proof.
  revert i. induction l as [| y l IH]; intros [| i] Hi; try discriminate.
  - cbn in Hi. injection Hi as ->. reflexivity.
  - cbn in Hi. cbn. f_equal. now apply IH.
Qed.

(** X15. [handleIllustrate] with an image: when the selected article has
    a comic adaptation, the article found under the selected id
    afterwards is the handler's snapshot with, at the position of its
    first comic adaptation and nowhere else, that adaptation with the
    image set and its other fields as they were; the comic lookup then
    returns it and the lookup for a profile returns what it did. When
    the article has no comic adaptation, the list of articles is not
    touched. *)
Theorem illustration_lands_on_the_comic
    selected imageBase64 prev profile activeFormat a0 :
  selectedArticle prev (Some (art_id selected)) = Some a0 ->
  let articles' := saveIllustration selected imageBase64 prev in
  let after := selectedArticle articles' (Some (art_id selected)) in
  match storedAdaptation (Some selected) profile COMIC_BOOK with
  | Some comic =>
      exists i,
        adaptations selected !! i = Some comic /\
        ad_profileDescription comic = comicKey /\
        (forall j x, (j < i)%nat -> adaptations selected !! j = Some x ->
                     ad_profileDescription x <> comicKey) /\
        after
        = Some (set_adaptations
                  (<[i := mkAdaptation (ad_id comic) (ad_profileDescription comic)
                            (ad_content comic) (Some imageBase64)
                            (ad_createdAt comic)]>
                     (adaptations selected))
                  selected) /\
        storedAdaptation after profile COMIC_BOOK
        = Some (set_image imageBase64 comic) /\
        (activeFormat <> COMIC_BOOK ->
         storedAdaptation after profile activeFormat
         = storedAdaptation (Some selected) profile activeFormat)
  | None =>
      (forall x, x ∈ adaptations selected ->
                 ad_profileDescription x <> comicKey) /\
      articles' = prev
  end.
Proof.
  intros Hsel. cbv zeta. unfold saveIllustration.
  unfold storedAdaptation at 1.
  set (isComic := fun x => String.eqb (ad_profileDescription x) comicKey).
  pose proof (findIndex_find isComic (set_image imageBase64)
                (adaptations selected) (fun x => eq_refl)) as Hfind.
  pose proof (find_alter_other isComic
                (fun x => String.eqb (ad_profileDescription x)
                                     (getProfileKey profile))
                (set_image imageBase64) (adaptations selected)
                (fun x => eq_refl)) as Hother.
  pose proof (findIndex_Some isComic (adaptations selected)) as Hfirst.
  pose proof (findIndex_None isComic (adaptations selected)) as Hnone.
  destruct (findIndex isComic (adaptations selected)) as [i |].
  - destruct (Hfirst i eq_refl) as (comic & Hi & Hpc & Hfc & Hbefore).
    destruct Hfind as (comic' & Hcomic & Halter).
    rewrite Hcomic in Hfc. injection Hfc as ->. rewrite Hcomic.
    rewrite (selectedArticle_saved
               (set_adaptations
                  (alter (set_image imageBase64) i (adaptations selected))
                  selected)
               prev (art_id selected) a0 eq_refl Hsel).
    exists i. split; [ exact Hi | ].
    split; [ now apply String.eqb_eq | ].
    split.
    { intros j x Hj Hx Hkey. pose proof (Hbefore j x Hj Hx) as Hf.
      unfold isComic in Hf. rewrite Hkey, String.eqb_refl in Hf.
      discriminate Hf. }
    split.
    { rewrite (alter_is_insert _ _ _ _ Hi). reflexivity. }
    unfold storedAdaptation. cbn [adaptations set_adaptations].
    split; [ exact Halter | ].
    intros Hfmt.
    assert (Hsame : find (fun x => String.eqb (ad_profileDescription x)
                                     (getProfileKey profile))
                      (alter (set_image imageBase64) i (adaptations selected))
                    = find (fun x => String.eqb (ad_profileDescription x)
                                       (getProfileKey profile))
                        (adaptations selected)).
    { apply Hother. intros x Hx. unfold isComic in Hx.
      apply String.eqb_eq in Hx. rewrite Hx. apply String.eqb_neq.
      intros Heq. now apply (getProfileKey_not_comic profile). }
    destruct activeFormat; try contradiction; exact Hsame.
  - rewrite Hfind. split; [ | reflexivity ].
    intros x Hx Hkey. pose proof (Hnone eq_refl x Hx) as Hf.
    unfold isComic in Hf. rewrite Hkey, String.eqb_refl in Hf.
    discriminate Hf.
Qed.

Lemma illustration_lands_on_the_comic_witness :
  let profile := mkProfile "Marketing Manager" "Novice" "5 minutes" in
  let text := textAdaptation "a1" "summary" "t1" profile in
  let comic := comicAdaptation "c1" "**Panel 1**" "t2" in
  let older := comicAdaptation "c0" "**Panel 0**" "t0" in
  let selected := mkArticle "1" "Quantum" "body" "Dr. Smith" true false
                    ["Tech"]%string [] [text; comic; older] "2023-10-27" in
  selectedArticle [selected] (Some "1"%string) = Some selected /\
  selectedArticle (saveIllustration selected "IMG" [selected]) (Some "1"%string)
  = Some (set_adaptations [text; set_image "IMG" comic; older] selected) /\
  storedAdaptation
    (selectedArticle (saveIllustration selected "IMG" [selected])
                     (Some "1"%string)) profile TEXT_SUMMARY
  = Some text.
Proof.
  cbv zeta.
  set (profile := mkProfile "Marketing Manager" "Novice" "5 minutes").
  set (text := textAdaptation "a1" "summary" "t1" profile).
  set (comic := comicAdaptation "c1" "**Panel 1**" "t2").
  set (older := comicAdaptation "c0" "**Panel 0**" "t0").
  set (selected := mkArticle "1" "Quantum" "body" "Dr. Smith" true false
                     ["Tech"]%string [] [text; comic; older] "2023-10-27").
  assert (Htext : TEXT_SUMMARY <> COMIC_BOOK) by discriminate.
  assert (Hsel : selectedArticle [selected] (Some "1"%string) = Some selected)
    by reflexivity.
  pose proof (illustration_lands_on_the_comic selected "IMG" [selected]
                profile TEXT_SUMMARY selected Hsel) as H.
  cbv zeta in H.
  change (storedAdaptation (Some selected) profile COMIC_BOOK)
    with (Some comic) in H.
  destruct H as (i & Hi & _ & _ & Hafter & _ & Hother).
  split; [ exact Hsel | ]. split.
  - destruct i as [| [| [| i]]]; try discriminate Hi. exact Hafter.
  - change (Some "1"%string) with (Some (art_id selected)).
    rewrite (Hother Htext). reflexivity.
Defined.
